(** * The SDK-updates endpoint of sentry: latest version per project and SDK

    A shallow embedding of [OrganizationSdkUpdates.get]
    (src/sentry/api/endpoints/organization_sdk_updates.py) and the
    properties of its reduction of query rows to one version per
    (project, SDK name).

    Python values are modelled as follows: unbounded [int] as [Z], [str] as
    [string] (the characters of the model are the 8-bit characters of
    [ascii]; version strings and SDK names are ASCII text), a query row (a
    dict with fixed column names) as a record whose fields are optional,
    [None] standing for a missing key, the dicts built by the endpoint as
    [gmap], and a raised exception as the left injection of a sum.
    [int] is that of Python 3.6 and later, which reads an underscore between
    two digits; the theorems below hold with or without that rule. The two
    queries the endpoint makes, and [sentry.sdk_updates], are outside this
    file: their results are the arguments of the model. *)

From Stdlib Require Import ZArith Ascii String List Lia Bool.
From stdpp Require Import base option list gmap strings sorting.

Local Open Scope string_scope.
Local Open Scope list_scope.
Local Open Scope Z_scope.

(** ** Exceptions *)

(** The exceptions the endpoint's own code can raise: subscripting a row
    with a missing key, [int] on a string that is no integer literal, and
    [pop] on an empty list. *)
Inductive exn : Type :=
  | KeyError (key : string)
  | ValueError
  | IndexError.

Definition result (A : Type) : Type := (exn + A)%type.

Definition raise {A} (e : exn) : result A := inl e.

Global Instance result_ret : MRet result := λ A x, inr x.
Global Instance result_bind : MBind result := λ A B f m,
  match m with
  | inl e => inl e
  | inr x => f x
  end.

Definition returns {A} (m : result A) : Prop := ∃ x, m = inr x.
Definition raises {A} (m : result A) : Prop := ∃ e, m = inl e.

(** [[f(x) for x in l]], evaluated left to right; the first exception
    aborts the comprehension. *)
Fixpoint traverse {A B} (f : A → result B) (l : list A) : result (list B) :=
  match l with
  | [] => mret []
  | x :: l' => y ← f x; ys ← traverse f l'; mret (y :: ys)
  end.

(** ** [str.split(".")] and [int(str)] *)

(** [s.split(".")]: the maximal pieces between dots; never empty, and an
    empty piece is kept ([("1..2").split(".") = ["1"; ""; "2"]]). *)
Fixpoint split_dot (s : string) : list string :=
  match s with
  | EmptyString => [EmptyString]
  | String c s' =>
      if Ascii.eqb c "." then EmptyString :: split_dot s'
      else match split_dot s' with
           | piece :: pieces => String c piece :: pieces
           | [] => [String c EmptyString]
           end
  end.

Definition code (c : ascii) : Z := Z.of_N (N_of_ascii c).

Definition is_digit (c : ascii) : bool := (48 <=? code c) && (code c <=? 57).

(** Whitespace that [int] skips at both ends of an ASCII string: tab, line
    feed, vertical tab, form feed, carriage return and space. *)
Definition is_space (c : ascii) : bool :=
  ((9 <=? code c) && (code c <=? 13)) || (code c =? 32).

Definition digit_val (c : ascii) : Z := code c - 48.

Fixpoint lstrip (s : list ascii) : list ascii :=
  match s with
  | c :: s' => if is_space c then lstrip s' else s
  | [] => []
  end.

Definition strip (s : list ascii) : list ascii :=
  reverse (lstrip (reverse (lstrip s))).

(** Decimal digits, with single underscores allowed between two digits
    (Python 3.6 and later); [prev] tells whether the previous character was
    a digit. *)
Fixpoint parse_digits (acc : Z) (prev : bool) (s : list ascii) : option Z :=
  match s with
  | [] => if prev then Some acc else None
  | c :: s' =>
      if is_digit c then parse_digits (10 * acc + digit_val c) true s'
      else if Ascii.eqb c "_" && prev then parse_digits acc false s'
      else None
  end.

Definition int_literal (s : list ascii) : option Z :=
  match s with
  | c :: ds =>
      if Ascii.eqb c "+" then parse_digits 0 false ds
      else if Ascii.eqb c "-" then Z.opp <$> parse_digits 0 false ds
      else parse_digits 0 false s
  | [] => None
  end.

(** [int(u)] for a string [u], base ten: surrounding whitespace is
    stripped, one sign is allowed, anything else raises [ValueError]. *)
Definition int (u : string) : result Z :=
  match int_literal (strip (list_ascii_of_string u)) with
  | Some n => mret n
  | None => raise ValueError
  end.

(** ** The sort key of a version and Python's order on lists of ints *)

(** [[int(u) for u in version.split(".")]] *)
Definition parse_version (version : string) : result (list Z) :=
  traverse int (split_dot version).

(** [a < b] on lists of ints: the first position where the lists differ
    decides; if there is none, the shorter list is the smaller one. *)
Fixpoint list_ltb (a b : list Z) : bool :=
  match a, b with
  | [], [] => false
  | [], _ :: _ => true
  | _ :: _, [] => false
  | x :: a', y :: b' => if x =? y then list_ltb a' b' else x <? y
  end.

(** [a <= b] on lists of ints; the sort itself only ever asks [<]. *)
Definition list_leb (a b : list Z) : bool := negb (list_ltb b a).

(** ** Rows of the query result *)

(** One element of [result["data"]]: a dict with the columns "project.id",
    "sdk.name", "sdk.version" and "last_seen()". A field is [None] when the
    row has no such key. *)
Record Row : Type := {
  project_id : option Z;
  sdk_name : option string;
  sdk_version : option string;
  last_seen : option Z
}.

Global Instance Row_eq_dec : EqDecision Row.
Proof. solve_decision. Defined.

(** [row[key]] *)
Definition getitem {A} (key : string) (field : option A) : result A :=
  match field with
  | Some x => mret x
  | None => raise (KeyError key)
  end.

Definition by_sdk_name (sdk : Row) : result string :=
  getitem "sdk.name" (sdk_name sdk).

Definition by_project_id (sdk : Row) : result Z :=
  getitem "project.id" (project_id sdk).

(** ** [itertools.groupby] under a comprehension *)

Section Groupby.
Context {A K B : Type} `{EqDecision K}.
Variable key : A → result K.
Variable body : K → list A → result B.

(** The state of the iteration: the key [k] of the group being read, the
    rows of that group read so far (latest first), and the rows not yet
    read. The key of a row is computed when the row is read; a group ends
    at the first row with another key, or with the input, and only then
    is the body run on it, as the body consumes the group. *)
Fixpoint groupby_from (k : K) (group : list A) (l : list A) : result (list B) :=
  match l with
  | [] => b ← body k (reverse group); mret [b]
  | x :: l' =>
      k' ← key x;
      if decide (k' = k) then groupby_from k (x :: group) l'
      else b ← body k (reverse group); bs ← groupby_from k' [x] l'; mret (b :: bs)
  end.

(** [[body(k, g) for k, g in groupby(l, key=key)]] *)
Definition groupby (l : list A) : result (list B) :=
  match l with
  | [] => mret []
  | x :: l' => k ← key x; groupby_from k [x] l'
  end.
End Groupby.

(** ** [sorted(l, key=key)] and [list.pop()] *)

Section Sorted.
Context {A K : Type}.
Variable ltb : K → K → bool.

(** Insertion of a decorated element in front of the first element that
    is not smaller: equal keys keep their order. *)
Fixpoint insert_keyed (kx : K * A) (l : list (K * A)) : list (K * A) :=
  match l with
  | [] => [kx]
  | ky :: l' => if ltb ky.1 kx.1 then ky :: insert_keyed kx l' else kx :: l
  end.

Definition sort_keyed (l : list (K * A)) : list (K * A) :=
  foldr insert_keyed [] l.

(** [sorted(l, key=key)]: the key of every element is computed first, in
    order, then the elements are sorted by [<] on the keys, stably. *)
Definition sorted (key : A → result K) (l : list A) : result (list A) :=
  decorated ← traverse (λ x, k ← key x; mret (k, x)) l;
  mret ((sort_keyed decorated).*2).
End Sorted.

(** [l.pop()]: the last element (the shortened list is not used again). *)
Definition pop {A} (l : list A) : result A :=
  match last l with
  | Some x => mret x
  | None => raise IndexError
  end.

(** [a < b] on strings: lexicographic on the character codes. *)
Definition str_ltb (a b : string) : bool := String.ltb a b.

(** ** The reduction: [sdks_by_project] *)

(** An element of the per-project list: [{"name": ..., "version": ...}]. *)
Record Sdk : Type := { name : string; version : string }.

Global Instance Sdk_eq_dec : EqDecision Sdk.
Proof. solve_decision. Defined.

(** [lambda v: [int(u) for u in v["sdk.version"].split(".")]] *)
Definition version_key (v : Row) : result (list Z) :=
  s ← getitem "sdk.version" (sdk_version v); parse_version s.

(** [sorted(sdks, key=...).pop()["sdk.version"]] *)
Definition latest_version (sdks : list Row) : result string :=
  l ← sorted list_ltb version_key sdks;
  r ← pop l;
  getitem "sdk.version" (sdk_version r).

(** The inner comprehension, for the rows [sdks_used] of one project. *)
Definition latest_sdks (sdks_used : list Row) : result (list Sdk) :=
  l ← sorted str_ltb by_sdk_name sdks_used;
  groupby by_sdk_name
    (λ sdk_name sdks,
       v ← latest_version sdks; mret {| name := sdk_name; version := v |})
    l.

(** The outer comprehension: the list of pairs, before [dict]. *)
Definition sdks_by_project_pairs (data : list Row) : result (list (Z * list Sdk)) :=
  groupby by_project_id
    (λ project_id sdks_used, l ← latest_sdks sdks_used; mret (project_id, l))
    data.

(** [dict(pairs)]: a later pair replaces an earlier one with the same key. *)
Definition dict {K V} `{Countable K} (pairs : list (K * V)) : gmap K V :=
  foldl (λ m kv, <[kv.1 := kv.2]> m) ∅ pairs.

Definition sdks_by_project (data : list Row) : result (gmap Z (list Sdk)) :=
  pairs ← sdks_by_project_pairs data; mret (dict pairs).

(** ** The endpoint *)

Record Project : Type := { id : Z }.

(** [SdkSetupState(sdk_name, sdk_version, modules, integrations)] of
    [sentry.sdk_updates]; the endpoint passes two empty tuples. *)
Record SdkSetupState : Type := {
  setup_sdk_name : string;
  setup_sdk_version : string;
  setup_modules : list string;
  setup_integrations : list string
}.

Section Endpoint.
(** [get_suggested_updates] and the index state come from
    [sentry.sdk_updates]; they are parameters of the model. *)
Context {SdkIndexState Suggestions : Type}.
Variable get_suggested_updates : SdkSetupState → SdkIndexState → result Suggestions.
Variable index_state : SdkIndexState.

Definition suggest (sdk : Sdk) : result Suggestions :=
  get_suggested_updates
    {| setup_sdk_name := name sdk; setup_sdk_version := version sdk;
       setup_modules := []; setup_integrations := [] |}
    index_state.

(** [get], from the projects and rows the two queries returned to the
    mapping handed to [Response]. *)
Definition get (projects : list Project) (data : list Row)
    : result (gmap Z (list Suggestions)) :=
  sdks ← sdks_by_project data;
  project_upgrade_suggestions ←
    traverse
      (λ project,
         l ← traverse suggest (default [] (sdks !! id project));
         mret (id project, l))
      projects;
  mret (dict project_upgrade_suggestions).
End Endpoint.

(** ** Vocabulary of the statements *)

(** The maximal runs of consecutive elements with the same key, with their
    key: what [groupby] yields when no key raises. *)
Fixpoint runs {A K} `{EqDecision K} (kf : A → K) (l : list A) : list (K * list A) :=
  match l with
  | [] => []
  | x :: l' =>
      match runs kf l' with
      | (k, g) :: rs =>
          if decide (kf x = k) then (k, x :: g) :: rs
          else (kf x, [x]) :: (k, g) :: rs
      | [] => [(kf x, [x])]
      end
  end.

(** Stable insertion sort by a key that cannot raise. *)
Fixpoint insert_by {A K} (ltb : K → K → bool) (kf : A → K) (x : A) (l : list A) : list A :=
  match l with
  | [] => [x]
  | y :: l' => if ltb (kf y) (kf x) then y :: insert_by ltb kf x l' else x :: l
  end.

Definition sort_by {A K} (ltb : K → K → bool) (kf : A → K) (l : list A) : list A :=
  foldr (insert_by ltb kf) [] l.

(** The value of a result that did not raise. *)
Definition value {A} (d : A) (m : result A) : A :=
  match m with
  | inr x => x
  | inl _ => d
  end.

Definition pid (r : Row) : Z := value 0 (by_project_id r).
Definition sname (r : Row) : string := value "" (by_sdk_name r).
Definition vkey (r : Row) : list Z := value [] (version_key r).
Definition vstring (r : Row) : string := default "" (sdk_version r).

(** A row the reduction can process: the three columns it reads are there
    and the version is a dotted sequence of integer literals. *)
Definition well_formed (r : Row) : bool :=
  match project_id r, sdk_name r, version_key r with
  | Some _, Some _, inr _ => true
  | _, _, _ => false
  end.

(** The rows of one project and one SDK name, in input order. *)
Definition group_of (p : Z) (n : string) (data : list Row) : list Row :=
  filter (λ r, project_id r = Some p ∧ sdk_name r = Some n) data.

(** The rows of every project are next to each other, as in a query result
    ordered by project. *)
Definition contiguous (data : list Row) : Prop :=
  ∀ l1 r l2 r' l3,
    data = l1 ++ r :: l2 ++ r' :: l3 →
    project_id r = project_id r' →
    Forall (λ x, project_id x = project_id r) l2.

(** Rows in descending order of project id, the order the query asks for
    ([orderby="-project"]). *)
Definition ordered_by_project (data : list Row) : Prop :=
  StronglySorted (λ r r', pid r' ≤ pid r) data.

(** The row [r] with its "last_seen()" column replaced, or removed. *)
Definition with_last_seen (f : Row → option Z) (r : Row) : Row :=
  {| project_id := project_id r; sdk_name := sdk_name r;
     sdk_version := sdk_version r; last_seen := f r |}.

(** Two runs of the reduction on the same rows, one after the other. *)
Definition reduce_twice (data : list Row)
    : result (gmap Z (list Sdk) * gmap Z (list Sdk)) :=
  first ← sdks_by_project data;
  second ← sdks_by_project data;
  mret (first, second).

(** A version component as the specification reads it: a non-empty string
    of ASCII digits. *)
Definition numeric (u : string) : bool :=
  match list_ascii_of_string u with
  | [] => false
  | cs => forallb is_digit cs
  end.

Definition all_numeric (version : string) : bool :=
  forallb numeric (split_dot version).

(** Comparison as the specification words it: the shorter sequence is
    padded with zeros to the longer length, then the sequences are compared
    component-wise. *)
Definition pad (n : nat) (a : list Z) : list Z :=
  a ++ replicate (n - length a) 0.

Definition spec_padded_ltb (a b : list Z) : bool :=
  let n := Nat.max (length a) (length b) in
  list_ltb (pad n a) (pad n b).

Definition spec_padded_eqb (a b : list Z) : bool :=
  let n := Nat.max (length a) (length b) in
  bool_decide (pad n a = pad n b).

Definition row (p : Z) (n v : string) (t : Z) : Row :=
  {| project_id := Some p; sdk_name := Some n; sdk_version := Some v;
     last_seen := Some t |}.

(** An ASCII character that occurs in no integer literal, with or without
    surrounding whitespace. *)
Definition junk (c : ascii) : bool :=
  (code c <? 128)
  && negb (is_digit c || is_space c || Ascii.eqb c "+" || Ascii.eqb c "-"
           || Ascii.eqb c "_").

(** The number a string of digits denotes. *)
Definition decimal (cs : list ascii) : Z :=
  foldl (λ acc c, 10 * acc + digit_val c) 0 cs.

(** The exceptions a row of the query result can cause: a missing column,
    or a version segment that is no integer literal. *)
Definition raised_by_row (e : exn) : bool :=
  match e with
  | KeyError k =>
      String.eqb k "project.id" || String.eqb k "sdk.name"
      || String.eqb k "sdk.version"
  | ValueError => true
  | IndexError => false
  end.

(** [".".join(pieces)] *)
Fixpoint join_dot (pieces : list string) : string :=
  match pieces with
  | [] => EmptyString
  | piece :: rest =>
      match rest with
      | [] => piece
      | _ :: _ => String.append piece (String "." (join_dot rest))
      end
  end.

(** [s.count(".")] *)
Fixpoint count_dots (s : string) : nat :=
  match s with
  | EmptyString => 0%nat
  | String c s' => if Ascii.eqb c "." then S (count_dots s') else count_dots s'
  end.

(** What the sort needs of [<] on keys: a strict total order. *)
Class StrictTotal {K : Type} (ltb : K → K → bool) : Prop := {
  ltb_irrefl a : ltb a a = false;
  ltb_trans a b c : ltb a b = true → ltb b c = true → ltb a c = true;
  ltb_connex a b : ltb a b = false → ltb b a = false → a = b
}.

(** * Properties *)

(** ** Python's rich comparison [<] as a strict total order *)

Section StrictTotalFacts.
Context {K : Type} (ltb : K → K → bool) `{!StrictTotal ltb}.

Lemma ltb_asym a b : ltb a b = true → ltb b a = false.
Proof.
  intros Hab. destruct (ltb b a) eqn:Hba; [|done].
  pose proof (ltb_trans a b a Hab Hba) as Haa.
  by rewrite ltb_irrefl in Haa.
Qed.

(** [a <= b < c] gives [a < c], and [a < b <= c] too. *)
Lemma ltb_le_lt a b c : ltb b a = false → ltb b c = true → ltb a c = true.
Proof.
  intros Hba Hbc. destruct (ltb a b) eqn:Hab.
  - exact (ltb_trans a b c Hab Hbc).
  - by rewrite (ltb_connex a b Hab Hba).
Qed.

Lemma ltb_lt_le a b c : ltb a b = true → ltb c b = false → ltb a c = true.
Proof.
  intros Hab Hcb. destruct (ltb b c) eqn:Hbc.
  - exact (ltb_trans a b c Hab Hbc).
  - by rewrite <- (ltb_connex b c Hbc Hcb).
Qed.

Lemma ltb_le_trans a b c : ltb b a = false → ltb c b = false → ltb c a = false.
Proof.
  intros Hba Hcb. destruct (ltb c a) eqn:Hca; [|done].
  pose proof (ltb_lt_le c a b Hca Hba). congruence.
Qed.
End StrictTotalFacts.

Lemma list_ltb_irrefl a : list_ltb a a = false.
Proof. induction a as [|x a IH]; simpl; [done|]. by rewrite Z.eqb_refl. Qed.

Lemma list_ltb_trans a b c :
  list_ltb a b = true → list_ltb b c = true → list_ltb a c = true.
Proof.
  revert b c. induction a as [|x a IH]; intros [|y b] [|z c]; simpl; try done.
  destruct (Z.eqb_spec x y) as [->|Hxy], (Z.eqb_spec y z) as [->|Hyz].
  - apply IH.
  - done.
  - intros Hlt _. destruct (Z.eqb_spec x z); [lia|done].
  - intros H1 H2. destruct (Z.eqb_spec x z); lia.
Qed.

Lemma list_ltb_connex a b :
  list_ltb a b = false → list_ltb b a = false → a = b.
Proof.
  revert b. induction a as [|x a IH]; intros [|y b]; simpl; try done.
  rewrite (Z.eqb_sym y x). destruct (Z.eqb_spec x y) as [->|Hxy].
  - intros H1 H2. f_equal. by apply IH.
  - lia.
Qed.

Global Instance list_ltb_strict_total : StrictTotal list_ltb.
Proof.
  split.
  - exact list_ltb_irrefl.
  - exact list_ltb_trans.
  - exact list_ltb_connex.
Qed.

Lemma str_ltb_leb a b : str_ltb a b = negb (String.leb b a).
Proof.
  unfold str_ltb, String.ltb, String.leb. rewrite (String.compare_antisym a b).
  by destruct (String.compare b a).
Qed.

Global Instance str_ltb_strict_total : StrictTotal str_ltb.
Proof.
  assert (Hle : ∀ a b, str_ltb a b = false ↔ String.le b a).
  { intros a b. rewrite str_ltb_leb. unfold String.le.
    destruct (String.leb b a); simpl; naive_solver. }
  assert (Hlt : ∀ a b, str_ltb a b = true ↔ ¬ String.le b a).
  { intros a b. rewrite <- Hle. destruct (str_ltb a b); intuition congruence. }
  split.
  - intros a. by apply Hle.
  - intros a b c Hab%Hlt Hbc%Hlt. apply Hlt. intros Hca.
    destruct (total String.le a b) as [Hab'|]; [|done].
    apply Hbc. by etrans.
  - intros a b Hab%Hle Hba%Hle. by apply (anti_symm String.le).
Qed.

(** ** The result monad and comprehensions *)

Lemma bind_inr {A B} (f : A → result B) (m : result A) (y : B) :
  m ≫= f = inr y ↔ ∃ x, m = inr x ∧ f x = inr y.
Proof.
  destruct m as [e|x]; simpl; split.
  - done.
  - by intros (x & [=] & _).
  - intros Hx. by exists x.
  - by intros (x' & [= <-] & Hx).
Qed.

Lemma traverse_app {A B} (f : A → result B) l1 l2 :
  traverse f (l1 ++ l2) = ys1 ← traverse f l1; ys2 ← traverse f l2; mret (ys1 ++ ys2).
Proof.
  induction l1 as [|x l1 IH]; simpl.
  - by destruct (traverse f l2).
  - destruct (f x); simpl; [done|]. rewrite IH.
    destruct (traverse f l1); simpl; [done|]. by destruct (traverse f l2).
Qed.

Lemma traverse_inr {A B} (f : A → result B) l ys :
  traverse f l = inr ys ↔ Forall2 (λ x y, f x = inr y) l ys.
Proof.
  revert ys. induction l as [|x l IH]; intros ys; simpl.
  - split; [intros [= <-]; constructor | by intros ->%Forall2_nil_inv_l].
  - split.
    + intros (y & Hy & (ys' & Hys & [= <-])%bind_inr)%bind_inr.
      constructor; [done|]. by apply IH.
    + intros (y & ys' & Hy & Hys & ->)%Forall2_cons_inv_l.
      rewrite Hy. simpl. apply IH in Hys. by rewrite Hys.
Qed.

Lemma traverse_pure {A B} (f : A → result B) (g : A → B) l :
  Forall (λ x, f x = inr (g x)) l → traverse f l = inr (g <$> l).
Proof.
  intros Hl. apply traverse_inr. induction Hl; constructor; done.
Qed.

Lemma traverse_returns_all {A B} (f : A → result B) l :
  returns (traverse f l) → Forall (λ x, returns (f x)) l.
Proof.
  intros [ys Hys%traverse_inr]. induction Hys; constructor; [by eexists|done].
Qed.

(** When [f] can raise only [e], a comprehension over a list with an
    element on which [f] raises, raises [e]. *)
Lemma traverse_raises {A B} (f : A → result B) (e : exn) l :
  (∀ x e', f x = inl e' → e' = e) →
  Exists (λ x, raises (f x)) l → traverse f l = inl e.
Proof.
  intros Hf. induction 1 as [x l [e' He']|x l _ IH]; simpl.
  - rewrite He'. simpl. by rewrite (Hf _ _ He').
  - destruct (f x) as [e'|y] eqn:Hx; simpl.
    + by rewrite (Hf _ _ Hx).
    + by rewrite IH.
Qed.

Lemma forallb_Forall {A} (f : A → bool) l :
  forallb f l = true ↔ Forall (λ x, f x = true) l.
Proof.
  induction l as [|x l IH]; simpl.
  - split; [constructor|done].
  - rewrite andb_true_iff, Forall_cons, IH. done.
Qed.

(** ** [int] and the version key *)

Lemma int_raises_ValueError u e : int u = inl e → e = ValueError.
Proof. unfold int. destruct (int_literal _); [done|]. by intros [= <-]. Qed.

Lemma is_digit_not_space c : is_digit c = true → is_space c = false.
Proof. unfold is_digit, is_space. lia. Qed.

Lemma digit_val_range c : is_digit c = true → 0 ≤ digit_val c ≤ 9.
Proof. unfold is_digit, digit_val. lia. Qed.

Lemma lstrip_head c s : is_space c = false → lstrip (c :: s) = c :: s.
Proof. simpl. by intros ->. Qed.

Lemma strip_digits cs :
  Forall (λ c, is_digit c = true) cs → strip cs = cs.
Proof.
  intros Hcs. unfold strip.
  assert (Hl : ∀ s, Forall (λ c, is_digit c = true) s → lstrip s = s).
  { intros [|c s]; [done|]. intros Hs%Forall_cons_1.
    apply lstrip_head, is_digit_not_space, Hs. }
  rewrite (Hl cs Hcs), Hl; [apply reverse_involutive|].
  by apply Forall_reverse.
Qed.

Lemma parse_digits_digits cs acc :
  Forall (λ c, is_digit c = true) cs →
  parse_digits acc true cs = Some (foldl (λ acc c, 10 * acc + digit_val c) acc cs).
Proof.
  intros Hcs. revert acc. induction Hcs as [|c cs Hc _ IH]; intros acc; simpl.
  - done.
  - rewrite Hc. apply IH.
Qed.

Lemma decimal_nonneg cs acc :
  Forall (λ c, is_digit c = true) cs → 0 ≤ acc →
  0 ≤ foldl (λ acc c, 10 * acc + digit_val c) acc cs.
Proof.
  intros Hcs. revert acc. induction Hcs as [|c cs Hc _ IH]; intros acc Hacc; simpl.
  - done.
  - apply IH. pose proof (digit_val_range c Hc). lia.
Qed.

(** A non-empty string of digits is an integer literal, with its decimal
    value. *)
Lemma int_numeric u :
  numeric u = true →
  int u = inr (decimal (list_ascii_of_string u)) ∧
  0 ≤ decimal (list_ascii_of_string u).
Proof.
  unfold numeric, int, decimal.
  destruct (list_ascii_of_string u) as [|c cs] eqn:Hu; [done|].
  intros Hall%forallb_Forall.
  rewrite (strip_digits _ Hall).
  pose proof (Forall_cons_1 _ _ _ Hall) as [Hc Hcs].
  split; [|by apply decimal_nonneg].
  unfold int_literal.
  assert (Ascii.eqb c "+" = false ∧ Ascii.eqb c "-" = false) as [-> ->].
  { split; apply Ascii.eqb_neq; intros ->; done. }
  simpl. rewrite Hc. by rewrite (parse_digits_digits cs _ Hcs).
Qed.

Lemma elem_of_lstrip c s : c ∈ s → is_space c = false → c ∈ lstrip s.
Proof.
  intros Hc Hsp. induction s as [|d s IH]; simpl; [done|].
  destruct (is_space d) eqn:Hd; [|done].
  apply elem_of_cons in Hc as [->|Hc]; [congruence|by apply IH].
Qed.

Lemma elem_of_strip c s : c ∈ s → is_space c = false → c ∈ strip s.
Proof.
  intros Hc Hsp. unfold strip.
  apply elem_of_reverse, elem_of_lstrip; [|done].
  by apply elem_of_reverse, elem_of_lstrip.
Qed.

Lemma parse_digits_junk c s acc prev :
  c ∈ s → is_digit c = false → Ascii.eqb c "_" = false →
  parse_digits acc prev s = None.
Proof.
  intros Hc Hd Hu. revert acc prev.
  induction s as [|d s IH]; intros acc prev; [by apply elem_of_nil in Hc|].
  simpl. apply elem_of_cons in Hc as [<-|Hc].
  - by rewrite Hd, Hu.
  - destruct (is_digit d); [by apply IH|].
    destruct (Ascii.eqb d "_" && prev); [by apply IH|done].
Qed.

Lemma int_literal_junk c s : c ∈ s → junk c = true → int_literal s = None.
Proof.
  unfold junk. intros Hc [_ Hj]%andb_true_iff.
  apply negb_true_iff in Hj.
  repeat (apply orb_false_iff in Hj as [Hj ?]).
  destruct s as [|d s]; [done|]. simpl.
  destruct (Ascii.eqb d "+") eqn:Hplus.
  { apply Ascii.eqb_eq in Hplus as ->.
    apply elem_of_cons in Hc as [->|Hc]; [done|].
    by apply parse_digits_junk with c. }
  destruct (Ascii.eqb d "-") eqn:Hminus.
  { apply Ascii.eqb_eq in Hminus as ->.
    apply elem_of_cons in Hc as [->|Hc]; [done|].
    by rewrite (parse_digits_junk c s 0 false). }
  by apply (parse_digits_junk c (d :: s) 0 false).
Qed.

(** A string with a junk character, and the empty string, are no integer
    literals. *)
Lemma int_junk u c :
  c ∈ list_ascii_of_string u → junk c = true → int u = inl ValueError.
Proof.
  intros Hc Hj. unfold int.
  rewrite (int_literal_junk c); [done| |done].
  apply elem_of_strip; [done|].
  unfold junk in Hj. apply andb_true_iff in Hj as [_ Hj].
  apply negb_true_iff in Hj.
  by repeat (apply orb_false_iff in Hj as [Hj ?]).
Qed.

Lemma parse_version_numeric version :
  all_numeric version = true →
  ∃ ks, parse_version version = inr ks ∧ Forall (λ k, 0 ≤ k) ks.
Proof.
  unfold all_numeric, parse_version. intros Hall%forallb_Forall.
  exists ((λ u, decimal (list_ascii_of_string u)) <$> split_dot version). split.
  - apply traverse_pure. eapply Forall_impl; [exact Hall|].
    intros u Hu. by apply int_numeric.
  - apply Forall_fmap. eapply Forall_impl; [exact Hall|].
    intros u Hu. by apply int_numeric.
Qed.

Lemma parse_version_malformed version u :
  u ∈ split_dot version →
  u = "" ∨ (∃ c, c ∈ list_ascii_of_string u ∧ junk c = true) →
  parse_version version = inl ValueError.
Proof.
  intros Hu Hbad. unfold parse_version.
  apply traverse_raises; [apply int_raises_ValueError|].
  apply Exists_exists. exists u. split; [done|]. exists ValueError.
  destruct Hbad as [->|(c & Hc & Hj)]; [done|by apply int_junk with c].
Qed.

(** ** The code's order against zero-padded comparison *)

Lemma pad_cons n x a : pad (S n) (x :: a) = x :: pad n a.
Proof. done. Qed.

Lemma spec_padded_ltb_cons x a y b :
  spec_padded_ltb (x :: a) (y :: b) =
  if x =? y then spec_padded_ltb a b else x <? y.
Proof. done. Qed.

Lemma spec_padded_eqb_cons x a y b :
  spec_padded_eqb (x :: a) (y :: b) = (x =? y) && spec_padded_eqb a b.
Proof.
  unfold spec_padded_eqb. simpl Nat.max. cbv zeta. rewrite !pad_cons.
  destruct (Z.eqb_spec x y) as [->|Hxy]; simpl.
  - apply bool_decide_ext. split; [by intros [=]|by intros ->].
  - apply bool_decide_eq_false. by intros [=].
Qed.

Lemma list_ltb_zeros_r l :
  Forall (λ k, 0 ≤ k) l → list_ltb l (replicate (length l) 0) = false.
Proof.
  induction 1 as [|x l Hx _ IH]; simpl in *; [done|].
  destruct (Z.eqb_spec x 0); [done|lia].
Qed.

Lemma list_ltb_zeros_l l :
  Forall (λ k, 0 ≤ k) l →
  list_ltb (replicate (length l) 0) l = negb (bool_decide (replicate (length l) 0 = l)).
Proof.
  induction 1 as [|x l Hx _ IH]; [done|].
  cbv beta in Hx. cbn [list_ltb replicate length].
  destruct (Z.eqb_spec 0 x) as [<-|Hx0].
  - rewrite IH. f_equal. apply bool_decide_ext.
    split; [by intros ->|by intros [=]].
  - rewrite bool_decide_eq_false_2; [cbn [negb]; lia|]. by intros [=].
Qed.

Lemma spec_padded_nil_l b :
  spec_padded_ltb [] b = list_ltb (replicate (length b) 0) b ∧
  spec_padded_eqb [] b = bool_decide (replicate (length b) 0 = b).
Proof.
  unfold spec_padded_ltb, spec_padded_eqb, pad. simpl.
  by rewrite Nat.sub_0_r, Nat.sub_diag, app_nil_r.
Qed.

Lemma spec_padded_nil_r a :
  spec_padded_ltb a [] = list_ltb a (replicate (length a) 0) ∧
  spec_padded_eqb a [] = bool_decide (a = replicate (length a) 0).
Proof.
  unfold spec_padded_ltb, spec_padded_eqb, pad. simpl.
  by rewrite Nat.max_0_r, Nat.sub_0_r, Nat.sub_diag, app_nil_r.
Qed.

(** On non-negative components the code's [<] is the zero-padded
    comparison, refined by the number of components where padding would
    make two versions equal. *)
Lemma list_ltb_padded a b :
  Forall (λ k, 0 ≤ k) a → Forall (λ k, 0 ≤ k) b →
  list_ltb a b =
  spec_padded_ltb a b || (spec_padded_eqb a b && (length a <? length b)%nat).
Proof.
  intros Ha. revert b. induction Ha as [|x a Hx Ha IH]; intros b Hb.
  - destruct (spec_padded_nil_l b) as [-> ->].
    destruct Hb as [|y b Hy Hb]; [done|].
    rewrite (list_ltb_zeros_l (y :: b)) by by constructor.
    simpl list_ltb. simpl length. by destruct (bool_decide _).
  - destruct Hb as [|y b Hy Hb].
    + destruct (spec_padded_nil_r (x :: a)) as [-> _].
      rewrite (list_ltb_zeros_r (x :: a)) by by constructor.
      simpl. by rewrite andb_false_r.
    + rewrite spec_padded_ltb_cons, spec_padded_eqb_cons. simpl.
      destruct (Z.eqb_spec x y) as [->|Hxy]; simpl.
      * by apply IH.
      * by rewrite orb_false_r.
Qed.

Lemma spec_padded_same_length a b :
  length a = length b →
  spec_padded_ltb a b = list_ltb a b ∧ spec_padded_eqb a b = bool_decide (a = b).
Proof.
  intros Hlen. unfold spec_padded_ltb, spec_padded_eqb, pad.
  rewrite <- Hlen, Nat.max_id, Nat.sub_diag. simpl. by rewrite !app_nil_r.
Qed.

(** C8. The order on version keys that the sort of the reducer uses, Python's
    order on lists of ints, is a total order: it is reflexive, antisymmetric
    (two keys below each other are the same list), transitive, and any two
    keys are comparable. *)
Theorem parsed_version_total_order :
  (∀ x, list_leb x x = true) ∧
  (∀ x y, list_leb x y = true → list_leb y x = true → x = y) ∧
  (∀ x y z, list_leb x y = true → list_leb y z = true → list_leb x z = true) ∧
  (∀ x y, list_leb x y = true ∨ list_leb y x = true).
Proof.
  unfold list_leb. repeat split.
  - intros x. by rewrite list_ltb_irrefl.
  - intros x y Hxy%negb_true_iff Hyx%negb_true_iff. by apply list_ltb_connex.
  - intros x y z Hxy%negb_true_iff Hyz%negb_true_iff. apply negb_true_iff.
    exact (ltb_le_trans list_ltb x y z Hxy Hyz).
  - intros x y. destruct (list_ltb y x) eqn:Hyx; [right|by left].
    apply negb_true_iff. exact (ltb_asym list_ltb y x Hyx).
Qed.

Lemma parsed_version_total_order_witness :
  list_leb [1; 2] [1; 2; 0] = true ∧ list_leb [1; 2; 0] [2] = true ∧
  list_leb [1; 2] [2] = true.
Proof.
  split; [reflexivity|]. split; [reflexivity|].
  apply (proj1 (proj2 (proj2 parsed_version_total_order)) [1; 2] [1; 2; 0] [2]);
    reflexivity.
Defined.

(** C2, as the code has it. Parsing a version has no degraded mode: it
    succeeds, with non-negative components, on every version whose
    dot-separated segments are non-empty strings of ASCII digits, and it
    raises [ValueError] on every version with a segment that is empty or
    holds a character other than a digit, whitespace, a sign or an
    underscore (a pre-release tag, for one). *)
Theorem parse_version_no_degraded_mode (version : string) :
  (all_numeric version = true →
   ∃ ks, parse_version version = inr ks ∧ Forall (λ k, 0 ≤ k) ks) ∧
  (∀ u, u ∈ split_dot version →
        u = "" ∨ (∃ c, c ∈ list_ascii_of_string u ∧ junk c = true) →
        parse_version version = inl ValueError).
Proof.
  split; [apply parse_version_numeric|].
  intros u. apply parse_version_malformed.
Qed.

Lemma parse_version_no_degraded_mode_witness :
  (∃ ks, parse_version "1.0.0" = inr ks ∧ Forall (λ k, 0 ≤ k) ks) ∧
  parse_version "1.0.0-beta" = inl ValueError.
Proof.
  split.
  - apply (proj1 (parse_version_no_degraded_mode "1.0.0")). reflexivity.
  - apply (proj2 (parse_version_no_degraded_mode "1.0.0-beta") "0-beta").
    + vm_compute. repeat constructor.
    + right. exists "b"%char. split; [vm_compute; repeat constructor|reflexivity].
Defined.

(** C2 fails as stated: the pre-release version "1.0.0-beta" and the
    version "1..0" with an empty segment make the parse raise, and with it
    the selection of the latest version of a group. *)
Lemma parse_version_raises_counterexample :
  parse_version "1.0.0-beta" = inl ValueError ∧
  parse_version "1..0" = inl ValueError ∧
  latest_version [row 1 "sentry.python" "1.0.0-beta" 0] = inl ValueError.
Proof. repeat split; reflexivity. Qed.




(** ** Filters *)

Lemma filter_none {A} (P : A → Prop) `{!∀ x, Decision (P x)} l :
  Forall (λ x, ¬ P x) l → filter P l = [].
Proof.
  induction 1 as [|x l Hx _ IH]; [done|]. by rewrite filter_cons_False.
Qed.

Lemma filter_all {A} (P : A → Prop) `{!∀ x, Decision (P x)} l :
  Forall P l → filter P l = l.
Proof.
  induction 1 as [|x l Hx _ IH]; [done|]. by rewrite filter_cons_True, IH.
Qed.

(** ** The stable sort *)

Section SortFacts.
Context {A K : Type} (ltb : K → K → bool) `{!StrictTotal ltb} (kf : A → K).
Context `{EqDecision K}.

Abbreviation below := (λ x y : A, ltb (kf y) (kf x) = false).
Abbreviation insert := (insert_by ltb kf).
Abbreviation sort := (sort_by ltb kf).

Lemma insert_by_Permutation x l : insert x l ≡ₚ x :: l.
Proof.
  induction l as [|y l IH]; simpl; [done|].
  destruct (ltb (kf y) (kf x)); [|done].
  rewrite IH. apply Permutation_swap.
Qed.

Lemma sort_by_Permutation l : sort l ≡ₚ l.
Proof.
  induction l as [|x l IH]; simpl; [done|].
  fold (sort l). by rewrite insert_by_Permutation, IH.
Qed.

Lemma elem_of_sort_by x l : x ∈ sort l ↔ x ∈ l.
Proof. by rewrite sort_by_Permutation. Qed.

Lemma insert_by_sorted x l :
  StronglySorted below l → StronglySorted below (insert x l).
Proof.
  induction 1 as [|y l Hl IH Hy]; simpl.
  - repeat constructor.
  - destruct (ltb (kf y) (kf x)) eqn:Hyx.
    + constructor; [done|].
      rewrite insert_by_Permutation. constructor; [|done].
      exact (ltb_asym ltb _ _ Hyx).
    + constructor; [by constructor|]. constructor; [done|].
      eapply Forall_impl; [exact Hy|]. intros z Hz. cbv beta in *.
      exact (ltb_le_trans ltb _ _ _ Hyx Hz).
Qed.

Lemma sort_by_sorted l : StronglySorted below (sort l).
Proof.
  induction l as [|x l IH]; simpl; [constructor|].
  by apply insert_by_sorted.
Qed.

(** Stability: the elements with a given key keep their order. *)
Lemma insert_by_stable k x l :
  filter (λ y, kf y = k) (insert x l) = filter (λ y, kf y = k) (x :: l).
Proof.
  induction l as [|y l IH]; simpl; [done|].
  destruct (ltb (kf y) (kf x)) eqn:Hyx; [|done].
  rewrite (filter_cons _ y), IH, !filter_cons.
  destruct (decide (kf y = k)) as [Hy|Hy], (decide (kf x = k)) as [Hx|Hx];
    try done.
  rewrite Hy, Hx, ltb_irrefl in Hyx. done.
Qed.

Lemma sort_by_stable k l :
  filter (λ y, kf y = k) (sort l) = filter (λ y, kf y = k) l.
Proof.
  induction l as [|x l IH]; simpl; [done|]. fold (sort l).
  by rewrite insert_by_stable, !filter_cons, IH.
Qed.

Lemma sorted_last_max l z :
  StronglySorted below l → last l = Some z → Forall (λ y, below y z) l.
Proof.
  intros Hl (l' & ->)%last_Some. apply Forall_app. split.
  - induction l' as [|y l' IH]; [constructor|].
    change ((y :: l') ++ [z]) with (y :: (l' ++ [z])) in Hl.
    inversion Hl as [|? ? Hl' Hy]; subst. constructor; [|by apply IH].
    rewrite Forall_app, Forall_singleton in Hy. by destruct Hy.
  - apply Forall_singleton. cbv beta. apply ltb_irrefl.
Qed.

(** What [sorted(l, key).pop()] returns: the element [x] that no element
    before it exceeds and that exceeds every element after it, that is,
    the last of the elements with the greatest key. *)
Lemma last_sort_by l1 x l2 :
  Forall (λ y, ltb (kf x) (kf y) = false) l1 →
  Forall (λ y, ltb (kf y) (kf x) = true) l2 →
  last (sort (l1 ++ x :: l2)) = Some x.
Proof.
  intros H1 H2. set (l := l1 ++ x :: l2).
  destruct (last (sort l)) as [z|] eqn:Hlast; last first.
  { apply last_None in Hlast. pose proof (sort_by_Permutation l) as Hp.
    rewrite Hlast in Hp. apply Permutation_nil_l in Hp.
    by destruct l1. }
  pose proof (sorted_last_max _ _ (sort_by_sorted l) Hlast) as Hmax.
  assert (Hzx : ltb (kf z) (kf x) = false).
  { rewrite Forall_forall in Hmax. apply Hmax, elem_of_sort_by.
    subst l. apply elem_of_app. right. by left. }
  assert (Hxz : ltb (kf x) (kf z) = false).
  { assert (z ∈ l) as Hz.
    { apply elem_of_sort_by. by apply last_Some_elem_of. }
    subst l. apply elem_of_app in Hz as [Hz|Hz].
    - rewrite Forall_forall in H1. by apply H1.
    - apply elem_of_cons in Hz as [->|Hz]; [apply ltb_irrefl|].
      rewrite Forall_forall in H2. exact (ltb_asym ltb _ _ (H2 _ Hz)). }
  pose proof (ltb_connex _ _ Hzx Hxz) as Hk.
  pose proof (sort_by_stable (kf x) l) as Hst.
  apply last_Some in Hlast as (l' & Hl').
  rewrite Hl' in Hst. subst l.
  rewrite !filter_app, !filter_cons, filter_nil in Hst.
  rewrite !decide_True in Hst by done.
  assert (filter (λ y, kf y = kf x) l2 = []) as Hl2.
  { apply filter_none. eapply Forall_impl; [exact H2|].
    intros y Hy Heq. cbv beta in Hy. by rewrite Heq, ltb_irrefl in Hy. }
  rewrite Hl2 in Hst.
  apply (f_equal last) in Hst. by rewrite !last_snoc in Hst.
Qed.

(** Every non-empty list has that element. *)
Lemma last_max_exists l :
  l ≠ [] →
  ∃ l1 x l2, l = l1 ++ x :: l2 ∧
    Forall (λ y, ltb (kf x) (kf y) = false) l1 ∧
    Forall (λ y, ltb (kf y) (kf x) = true) l2.
Proof.
  induction l as [|y l IH]; [done|]. intros _.
  destruct l as [|y' l].
  { exists [], y, []. by repeat split. }
  destruct IH as (l1 & x & l2 & Hl & H1 & H2); [done|]. rewrite Hl.
  destruct (ltb (kf x) (kf y)) eqn:Hxy.
  - exists [], y, (l1 ++ x :: l2). split; [done|]. split; [constructor|].
    apply Forall_app. split; [|constructor].
    + eapply Forall_impl; [exact H1|]. intros z Hz.
      exact (ltb_le_lt ltb _ _ _ Hz Hxy).
    + done.
    + eapply Forall_impl; [exact H2|]. intros z Hz.
      exact (ltb_trans _ _ _ Hz Hxy).
  - exists (y :: l1), x, l2. split; [done|]. split; [by constructor|done].
Qed.

(** The decorated sort of [sorted] is the sort by a key that cannot
    raise. *)
Lemma insert_keyed_by x l :
  insert_keyed ltb (kf x, x) ((λ y, (kf y, y)) <$> l)
  = (λ y, (kf y, y)) <$> insert x l.
Proof.
  induction l as [|y l IH]; [done|].
  rewrite fmap_cons. cbn [insert_keyed insert_by fst].
  destruct (ltb (kf y) (kf x)); [|done].
  by rewrite fmap_cons, IH.
Qed.

Lemma sort_keyed_by l :
  sort_keyed ltb ((λ y, (kf y, y)) <$> l) = (λ y, (kf y, y)) <$> sort l.
Proof.
  unfold sort_keyed, sort_by.
  induction l as [|x l IH]; [done|].
  rewrite fmap_cons. cbn [foldr]. rewrite IH. apply insert_keyed_by.
Qed.

Lemma sorted_sort_by (key : A → result K) l :
  Forall (λ x, key x = inr (kf x)) l →
  sorted ltb key l = inr (sort l).
Proof.
  intros Hl. unfold sorted.
  rewrite (traverse_pure _ (λ y, (kf y, y))).
  - simpl. rewrite sort_keyed_by. f_equal.
    rewrite <- list_fmap_compose. apply list_fmap_id.
  - eapply Forall_impl; [exact Hl|]. by intros x ->.
Qed.
End SortFacts.

Lemma sorted_returns {A K} (ltb : K → K → bool) (key : A → result K) l :
  returns (sorted ltb key l) → Forall (λ x, returns (key x)) l.
Proof.
  intros [l' (dec & Hdec & _)%bind_inr].
  assert (returns (traverse (λ x, k ← key x; mret (k, x)) l)) as Hr by by eexists.
  apply traverse_returns_all in Hr.
  eapply Forall_impl; [exact Hr|].
  intros x [kx (k & Hk & _)%bind_inr]. by exists k.
Qed.

(** ** Runs of equal keys *)

Section RunsFacts.
Context {A K : Type} `{EqDecision K} (kf : A → K).

Lemma runs_cons_head x l : ∃ g rs, runs kf (x :: l) = (kf x, x :: g) :: rs.
Proof.
  simpl. destruct (runs kf l) as [|[k g] rs]; [by exists [], []|].
  destruct (decide (kf x = k)) as [<-|]; by eexists _, _.
Qed.

Lemma runs_concat l : mjoin (runs kf l).*2 = l.
Proof.
  induction l as [|x l IH]; simpl; [done|].
  destruct (runs kf l) as [|[k g] rs]; simpl in *; [by rewrite <- IH|].
  destruct (decide (kf x = k)); simpl; by rewrite <- IH.
Qed.

(** A run is not empty and all its elements have the key of the run. *)
Lemma runs_homogeneous l :
  Forall (λ kg, kg.2 ≠ [] ∧ Forall (λ x, kf x = kg.1) kg.2) (runs kf l).
Proof.
  induction l as [|x l IH]; simpl; [constructor|].
  destruct (runs kf l) as [|[k g] rs]; [by repeat constructor|].
  apply Forall_cons in IH as [[Hg Hk] Hrs]. simpl in *.
  destruct (decide (kf x = k)); repeat constructor; done.
Qed.

Lemma runs_app l1 l2 :
  (∀ x y, last l1 = Some x → head l2 = Some y → kf x ≠ kf y) →
  runs kf (l1 ++ l2) = runs kf l1 ++ runs kf l2.
Proof.
  induction l1 as [|x l1 IH]; intros Hb; [done|].
  destruct l1 as [|x' l1].
  - simpl. destruct l2 as [|y l2]; [done|].
    destruct (runs_cons_head y l2) as (g & rs & ->).
    rewrite decide_False; [done|]. by apply Hb.
  - change (runs kf ((x :: x' :: l1) ++ l2))
      with (match runs kf ((x' :: l1) ++ l2) with
            | (k, g) :: rs =>
                if decide (kf x = k) then (k, x :: g) :: rs
                else (kf x, [x]) :: (k, g) :: rs
            | [] => [(kf x, [x])]
            end).
    rewrite IH by (intros a b Ha; apply Hb; by rewrite last_cons_cons).
    change (runs kf (x :: x' :: l1))
      with (match runs kf (x' :: l1) with
            | (k, g) :: rs =>
                if decide (kf x = k) then (k, x :: g) :: rs
                else (kf x, [x]) :: (k, g) :: rs
            | [] => [(kf x, [x])]
            end).
    destruct (runs_cons_head x' l1) as (g & rs & ->). simpl.
    by destruct (decide (kf x = kf x')).
Qed.

Lemma runs_single k g :
  g ≠ [] → Forall (λ x, kf x = k) g → runs kf g = [(k, g)].
Proof.
  induction g as [|x g IH]; [done|]. intros _ [Hx Hg]%Forall_cons.
  destruct g as [|x' g]; [by rewrite <- Hx|].
  change (runs kf (x :: x' :: g))
    with (match runs kf (x' :: g) with
          | (k, g) :: rs =>
              if decide (kf x = k) then (k, x :: g) :: rs
              else (kf x, [x]) :: (k, g) :: rs
          | [] => [(kf x, [x])]
          end).
  rewrite IH by done. by rewrite decide_True.
Qed.

(** A group of key [k] followed by an element with another key, or by
    nothing, is a run. *)
Lemma runs_group_app k g l :
  g ≠ [] → Forall (λ x, kf x = k) g →
  (∀ y, head l = Some y → kf y ≠ k) →
  runs kf (g ++ l) = (k, g) :: runs kf l.
Proof.
  intros Hg Hk Hl. rewrite runs_app.
  { by rewrite (runs_single k). }
  intros x y Hx%last_Some_elem_of Hy.
  rewrite Forall_forall in Hk. rewrite (Hk _ Hx). intros Heq.
  by apply (Hl y).
Qed.

Lemma elem_of_runs_key k l :
  k ∈ (runs kf l).*1 ↔ ∃ x, x ∈ l ∧ kf x = k.
Proof.
  pose proof (runs_homogeneous l) as Hh. rewrite Forall_forall in Hh. split.
  - intros ([k' g] & -> & Hkg)%list_elem_of_fmap. simpl.
    destruct (Hh _ Hkg) as [Hne Hall]. simpl in *.
    destruct g as [|x g]; [done|]. exists x. split.
    + rewrite <- (runs_concat l).
      apply list_elem_of_join. exists (x :: g). split; [by left|].
      apply list_elem_of_fmap. by exists (k', x :: g).
    + by apply Forall_cons in Hall as [? _].
  - intros (x & Hx & <-). rewrite <- (runs_concat l) in Hx.
    apply list_elem_of_join in Hx as (g & Hx & Hg).
    apply list_elem_of_fmap in Hg as ([k' g'] & -> & Hkg).
    destruct (Hh _ Hkg) as [_ Hall]. simpl in *.
    rewrite Forall_forall in Hall. rewrite (Hall _ Hx).
    apply list_elem_of_fmap. by exists (k', g').
Qed.
End RunsFacts.

(** ** [groupby] yields the runs *)

Section GroupbyFacts.
Context {A K B : Type} `{EqDecision K}.
Variable key : A → result K.
Variable body : K → list A → result B.
Variable kf : A → K.

Lemma groupby_from_runs k group l :
  Forall (λ x, key x = inr (kf x)) l →
  group ≠ [] → Forall (λ x, kf x = k) group →
  groupby_from key body k group l
  = traverse (λ kg, body kg.1 kg.2) (runs kf (reverse group ++ l)).
Proof.
  intros Hl. revert k group.
  induction Hl as [|x l Hx Hl IH]; intros k group Hne Hk.
  - rewrite app_nil_r, (runs_single kf k).
    + simpl. by destruct (body k (reverse group)).
    + intros Hr. apply Hne. by rewrite <- (reverse_involutive group), Hr.
    + by apply Forall_reverse.
  - cbn [groupby_from]. rewrite Hx. simpl.
    destruct (decide (kf x = k)) as [Hxk|Hxk].
    + rewrite IH; [|done|by constructor].
      by rewrite reverse_cons, <- app_assoc.
    + rewrite (runs_group_app kf k).
      * cbn [traverse fst snd]. rewrite IH; [|done|by repeat constructor].
        done.
      * intros Hr. apply Hne. by rewrite <- (reverse_involutive group), Hr.
      * by apply Forall_reverse.
      * by intros y [= <-].
Qed.

Lemma groupby_runs l :
  Forall (λ x, key x = inr (kf x)) l →
  groupby key body l = traverse (λ kg, body kg.1 kg.2) (runs kf l).
Proof.
  destruct l as [|x l]; [done|]. intros [Hx Hl]%Forall_cons.
  unfold groupby. rewrite Hx. simpl.
  rewrite groupby_from_runs; [done|done|done|by repeat constructor].
Qed.

Lemma groupby_from_returns k group l :
  returns (groupby_from key body k group l) →
  Forall (λ x, returns (key x)) l.
Proof.
  revert k group. induction l as [|x l IH]; intros k group; [constructor|].
  cbn [groupby_from]. intros [bs (k' & Hk' & Hbs)%bind_inr].
  constructor; [by exists k'|].
  destruct (decide (k' = k)).
  - apply (IH k (x :: group)). by exists bs.
  - apply bind_inr in Hbs as (b & _ & (bs' & Hbs' & _)%bind_inr).
    apply (IH k' [x]). by exists bs'.
Qed.

(** If the comprehension returns, no key raised. *)
Lemma groupby_returns l :
  returns (groupby key body l) → Forall (λ x, returns (key x)) l.
Proof.
  destruct l as [|x l]; [constructor|].
  intros [bs (k & Hk & Hbs)%bind_inr].
  constructor; [by exists k|].
  apply (groupby_from_returns k [x]). by exists bs.
Qed.
End GroupbyFacts.

Lemma returns_value {A} (d : A) (m : result A) : returns m → m = inr (value d m).
Proof. by intros [x ->]. Qed.

(** ** Groups with distinct keys *)

Section Groups.
Context {A K : Type} `{EqDecision K} (kf : A → K).

Abbreviation homogeneous :=
  (Forall (λ kg : K * list A, kg.2 ≠ [] ∧ Forall (λ x, kf x = kg.1) kg.2)).

Lemma filter_groups_absent k (rs : list (K * list A)) :
  homogeneous rs → k ∉ rs.*1 → filter (λ x, kf x = k) (mjoin rs.*2) = [].
Proof.
  intros Hrs Hk. apply filter_none, Forall_forall.
  intros x (g & Hx & ([k' g'] & -> & Hkg)%list_elem_of_fmap)%list_elem_of_join.
  rewrite Forall_forall in Hrs. destruct (Hrs _ Hkg) as [_ Hall].
  rewrite Forall_forall in Hall. simpl in *. rewrite (Hall _ Hx).
  intros ->. apply Hk. apply list_elem_of_fmap. by exists (k, g').
Qed.

(** With distinct keys, a group is all the elements with its key. *)
Lemma filter_groups k g (rs : list (K * list A)) :
  homogeneous rs → NoDup rs.*1 → (k, g) ∈ rs →
  filter (λ x, kf x = k) (mjoin rs.*2) = g.
Proof.
  induction rs as [|[k0 g0] rs IH]; [by intros _ _ ?%elem_of_nil|].
  intros [[_ Hg0] Hrs]%Forall_cons [Hk0 Hnd]%NoDup_cons Hkg.
  change (mjoin ((k0, g0) :: rs).*2) with (g0 ++ mjoin rs.*2).
  cbn [fst snd] in Hg0. rewrite filter_app.
  apply elem_of_cons in Hkg as [[= -> ->]|Hkg].
  - rewrite filter_all by done.
    rewrite filter_groups_absent by done. apply app_nil_r.
  - rewrite (filter_none _ g0), IH; [done..|].
    eapply Forall_impl; [exact Hg0|]. intros x -> ->.
    apply Hk0. apply list_elem_of_fmap. by exists (k, g).
Qed.

Lemma runs_filter k g l :
  NoDup (runs kf l).*1 → (k, g) ∈ runs kf l →
  g = filter (λ x, kf x = k) l.
Proof.
  intros Hnd Hkg. rewrite <- (runs_concat kf l) at 1.
  symmetry. apply filter_groups; [apply runs_homogeneous|done..].
Qed.

(** The runs of a sorted list have distinct keys. *)
Lemma runs_sorted_NoDup (ltb : K → K → bool) `{!StrictTotal ltb} l :
  StronglySorted (λ x y, ltb (kf y) (kf x) = false) l →
  NoDup (runs kf l).*1.
Proof.
  induction 1 as [|x l Hl IH Hx]; [constructor|].
  destruct l as [|h l]; [simpl; repeat constructor; apply not_elem_of_nil|].
  change (runs kf (x :: h :: l))
    with (match runs kf (h :: l) with
          | (k, g) :: rs =>
              if decide (kf x = k) then (k, x :: g) :: rs
              else (kf x, [x]) :: (k, g) :: rs
          | [] => [(kf x, [x])]
          end).
  destruct (runs_cons_head kf h l) as (g & rs & Hr). rewrite Hr in *.
  destruct (decide (kf x = kf h)) as [Hxh|Hxh]; [exact IH|].
  rewrite fmap_cons. apply NoDup_cons. split; [|done].
  rewrite <- Hr. intros (y & Hy & Hxy)%elem_of_runs_key.
  cbn [fst] in Hxy. apply Hxh. apply (ltb_connex (ltb:=ltb)).
  - apply StronglySorted_inv in Hl as [_ Hh].
    apply elem_of_cons in Hy as [->|Hy]; [by rewrite Hxy, ltb_irrefl|].
    rewrite Forall_forall in Hh. rewrite <- Hxy. by apply Hh.
  - apply Forall_cons in Hx as [Hx _]. done.
Qed.
End Groups.

(** ** [dict] *)

Section Dict.
Context {K V : Type} {HeqK : EqDecision K} {HcountK : Countable K}.

Lemma dict_snoc (l : list (K * V)) k v :
  dict (l ++ [(k, v)]) = <[k := v]> (dict l).
Proof. unfold dict. by rewrite foldl_app. Qed.

Lemma dict_lookup_absent (l : list (K * V)) k :
  k ∉ l.*1 → dict l !! k = None.
Proof.
  induction l as [|[k' v'] l IH] using rev_ind; [done|].
  rewrite fmap_app, dict_snoc. intros [Hk1 Hk2]%not_elem_of_app.
  rewrite lookup_insert_ne; [by apply IH|].
  intros ->. apply Hk2. by left.
Qed.

(** The last pair with a key is the one that stays. *)
Lemma dict_lookup_last (l1 l2 : list (K * V)) k v :
  k ∉ l2.*1 → dict (l1 ++ (k, v) :: l2) !! k = Some v.
Proof.
  induction l2 as [|[k' v'] l2 IH] using rev_ind; intros Hk.
  - by rewrite dict_snoc, lookup_insert_eq.
  - rewrite fmap_app in Hk. apply not_elem_of_app in Hk as [Hk1 Hk2].
    replace (l1 ++ (k, v) :: l2 ++ [(k', v')])
      with ((l1 ++ (k, v) :: l2) ++ [(k', v')]) by by rewrite <- app_assoc.
    rewrite dict_snoc, lookup_insert_ne; [by apply IH|].
    intros ->. apply Hk2. by left.
Qed.

Lemma dict_lookup_NoDup (l : list (K * V)) k v :
  NoDup l.*1 → (k, v) ∈ l → dict l !! k = Some v.
Proof.
  intros Hnd (l1 & l2 & ->)%list_elem_of_split.
  apply dict_lookup_last.
  rewrite fmap_app, fmap_cons in Hnd.
  apply NoDup_app in Hnd as (_ & _ & Hnd). by apply NoDup_cons in Hnd as [? _].
Qed.

Lemma dict_lookup_Some (l : list (K * V)) k v :
  dict l !! k = Some v → (k, v) ∈ l.
Proof.
  induction l as [|[k' v'] l IH] using rev_ind; [done|].
  rewrite dict_snoc. destruct (decide (k' = k)) as [->|Hne].
  - rewrite lookup_insert_eq. intros [= ->].
    apply elem_of_app. right. by left.
  - rewrite lookup_insert_ne by done. intros Hl%IH.
    apply elem_of_app. by left.
Qed.
End Dict.

Lemma filter_ext_Forall {A} (P Q : A → Prop)
    `{!∀ x, Decision (P x)} `{!∀ x, Decision (Q x)} l :
  Forall (λ x, P x ↔ Q x) l → filter P l = filter Q l.
Proof.
  induction 1 as [|x l Hx _ IH]; [done|].
  rewrite !filter_cons, IH.
  destruct (decide (P x)), (decide (Q x)); tauto.
Qed.

(** The entries of a list built from groups with distinct keys. *)
Lemma filter_entries {K G S} `{EqDecision K} (nm : S → K) (mk : K * G → S)
    (rs : list (K * G)) (k : K) :
  (∀ kg, nm (mk kg) = kg.1) → NoDup rs.*1 →
  (k ∉ rs.*1 → filter (λ s, nm s = k) (mk <$> rs) = []) ∧
  (∀ g, (k, g) ∈ rs → filter (λ s, nm s = k) (mk <$> rs) = [mk (k, g)]).
Proof.
  intros Hnm. induction rs as [|[k0 g0] rs IH]; intros Hnd.
  { split; [done|]. by intros g ?%elem_of_nil. }
  rewrite fmap_cons in Hnd. apply NoDup_cons in Hnd as [Hk0 Hnd].
  destruct (IH Hnd) as [IH1 IH2]. rewrite !fmap_cons, filter_cons, Hnm.
  cbn [fst]. split.
  - intros [Hne Hk]%not_elem_of_cons. rewrite decide_False by done. by apply IH1.
  - intros g [[= -> ->]|Hkg]%elem_of_cons.
    + rewrite decide_True by done. by rewrite IH1.
    + rewrite decide_False; [by apply IH2|]. intros ->.
      apply Hk0. apply list_elem_of_fmap. by exists (k, g).
Qed.

(** ** Rows *)

Lemma well_formed_fields r :
  well_formed r = true →
  project_id r = Some (pid r) ∧ sdk_name r = Some (sname r) ∧
  sdk_version r = Some (vstring r) ∧ version_key r = inr (vkey r).
Proof.
  unfold well_formed, pid, sname, vstring, vkey, by_project_id, by_sdk_name.
  destruct (project_id r) as [p|]; [|done].
  destruct (sdk_name r) as [n|]; [|done].
  destruct (version_key r) as [e|ks] eqn:Hk; [done|]. intros _.
  unfold version_key in Hk.
  destruct (sdk_version r) as [v|]; [|done]. done.
Qed.

Lemma well_formed_keys r :
  well_formed r = true →
  by_project_id r = inr (pid r) ∧ by_sdk_name r = inr (sname r).
Proof.
  intros (Hp & Hn & _)%well_formed_fields.
  unfold by_project_id, by_sdk_name. by rewrite Hp, Hn.
Qed.

Lemma returns_well_formed r :
  returns (by_project_id r) → returns (by_sdk_name r) →
  returns (version_key r) → well_formed r = true.
Proof.
  unfold well_formed, by_project_id, by_sdk_name.
  intros [p Hp] [n Hn] [ks ->].
  destruct (project_id r); [|done]. by destruct (sdk_name r).
Qed.

Lemma group_of_filter p n data :
  Forall (λ r, well_formed r = true) data →
  group_of p n data
  = filter (λ r, sname r = n) (filter (λ r, pid r = p) data).
Proof.
  intros Hwf. unfold group_of. rewrite list_filter_filter.
  apply filter_ext_Forall. eapply Forall_impl; [exact Hwf|].
  intros r (Hp & Hn & _)%well_formed_fields. rewrite Hp, Hn.
  split; [by intros [[= ->] [= ->]]|by intros [-> ->]].
Qed.

(** ** The latest version of a group *)

Lemma latest_version_last_max l1 x l2 :
  Forall (λ r, well_formed r = true) (l1 ++ x :: l2) →
  Forall (λ y, list_ltb (vkey x) (vkey y) = false) l1 →
  Forall (λ y, list_ltb (vkey y) (vkey x) = true) l2 →
  latest_version (l1 ++ x :: l2) = inr (vstring x).
Proof.
  intros Hwf H1 H2. unfold latest_version.
  rewrite (sorted_sort_by list_ltb vkey).
  - simpl. unfold pop. rewrite (last_sort_by list_ltb vkey l1 x l2 H1 H2). simpl.
    rewrite Forall_app, Forall_cons in Hwf.
    destruct Hwf as (_ & (_ & _ & -> & _)%well_formed_fields & _). done.
  - eapply Forall_impl; [exact Hwf|]. by intros r (_ & _ & _ & ?)%well_formed_fields.
Qed.

Lemma latest_version_returns sdks :
  sdks ≠ [] → Forall (λ r, well_formed r = true) sdks →
  returns (latest_version sdks).
Proof.
  intros (l1 & x & l2 & -> & H1 & H2)%(last_max_exists list_ltb vkey) Hwf.
  exists (vstring x). by apply latest_version_last_max.
Qed.

(** The versions of one project: one entry for every SDK name among its
    rows, with the latest version of the rows with that name. *)
Lemma latest_sdks_entries sdks_used :
  Forall (λ r, well_formed r = true) sdks_used →
  ∃ sdks, latest_sdks sdks_used = inr sdks ∧
    ∀ n, filter (λ s, name s = n) sdks =
         if decide (filter (λ r, sname r = n) sdks_used = []) then []
         else [{| name := n;
                  version := value "" (latest_version
                               (filter (λ r, sname r = n) sdks_used)) |}].
Proof.
  intros Hwf. unfold latest_sdks.
  set (sg := sort_by str_ltb sname sdks_used).
  set (mk := λ kg : string * list Row,
               {| name := kg.1; version := value "" (latest_version kg.2) |}).
  assert (Hsg : Forall (λ r, well_formed r = true) sg).
  { rewrite Forall_forall in *. intros r Hr%elem_of_sort_by. by apply Hwf. }
  assert (Hgrp : ∀ n grp, (n, grp) ∈ runs sname sg →
            grp = filter (λ r, sname r = n) sdks_used ∧ grp ≠ []).
  { intros n grp Hin. split.
    - rewrite (runs_filter sname n grp sg); [apply sort_by_stable; apply _| |done].
      apply (runs_sorted_NoDup sname str_ltb), sort_by_sorted, _.
    - pose proof (runs_homogeneous sname sg) as Hh.
      rewrite Forall_forall in Hh. by destruct (Hh _ Hin). }
  exists (mk <$> runs sname sg). split.
  - rewrite (sorted_sort_by str_ltb sname).
    2:{ eapply Forall_impl; [exact Hwf|]. by intros r [_ ?]%well_formed_keys. }
    simpl. fold sg. rewrite (groupby_runs _ _ sname).
    2:{ eapply Forall_impl; [exact Hsg|]. by intros r [_ ?]%well_formed_keys. }
    apply traverse_pure, Forall_forall. intros [n grp] Hin.
    destruct (Hgrp n grp Hin) as [Heq Hne]. cbn [fst snd].
    destruct (latest_version_returns grp Hne) as [v Hv].
    { rewrite Heq. apply Forall_forall. intros r [_ Hr]%list_elem_of_filter.
      rewrite Forall_forall in Hwf. by apply Hwf. }
    unfold mk. cbn [fst snd]. by rewrite Hv.
  - intros n.
    destruct (filter_entries name mk (runs sname sg) n) as [Habs Hpres].
    { done. }
    { apply (runs_sorted_NoDup sname str_ltb), sort_by_sorted, _. }
    destruct (decide (filter (λ r, sname r = n) sdks_used = [])) as [He|Hne].
    + apply Habs. intros (x & Hx%elem_of_sort_by & Hxn)%elem_of_runs_key.
      by apply (filter_nil_not_elem_of (λ r, sname r = n) sdks_used x He Hxn).
    + assert (n ∈ (runs sname sg).*1) as Hn.
      { apply elem_of_runs_key.
        destruct (filter (λ r, sname r = n) sdks_used) as [|x ?] eqn:Hf; [done|].
        assert (x ∈ filter (λ r, sname r = n) sdks_used) as Hx by (rewrite Hf; by left).
        apply list_elem_of_filter in Hx as [Hxn Hx].
        exists x. split; [by apply elem_of_sort_by|done]. }
      apply list_elem_of_fmap in Hn as ([n' grp] & -> & Hin). cbn [fst] in *.
      rewrite (Hpres grp Hin). destruct (Hgrp _ _ Hin) as [-> _]. done.
Qed.

(** ** The outer comprehension and [dict] *)

Lemma runs_elem_of {A K} `{EqDecision K} (kf : A → K) k g l x :
  (k, g) ∈ runs kf l → x ∈ g → x ∈ l.
Proof.
  intros Hkg Hx. rewrite <- (runs_concat kf l).
  apply list_elem_of_join. exists g. split; [done|].
  apply list_elem_of_fmap. by exists (k, g).
Qed.

Lemma Forall2_keys {G V} (Q : G → V → Prop)
    (rs : list (Z * G)) (ps : list (Z * V)) :
  Forall2 (λ kg pr, pr.1 = kg.1 ∧ Q kg.2 pr.2) rs ps → ps.*1 = rs.*1.
Proof.
  induction 1 as [|kg pr rs ps [Hk _] _ IH]; [done|].
  by rewrite !fmap_cons, Hk, IH.
Qed.

(** When the reduction returns, every row had its project id, and the
    pairs are those of the runs of rows with the same project id. *)
Lemma sdks_by_project_pairs_runs data pairs :
  sdks_by_project_pairs data = inr pairs →
  Forall (λ r, project_id r = Some (pid r)) data ∧
  Forall2 (λ kg pr, pr.1 = kg.1 ∧ latest_sdks kg.2 = inr pr.2)
    (runs pid data) pairs.
Proof.
  intros Hp. unfold sdks_by_project_pairs in Hp.
  assert (Hkeys : Forall (λ r, by_project_id r = inr (pid r)) data).
  { eapply Forall_impl; [eapply groupby_returns; by eexists|].
    intros r Hr. by apply returns_value. }
  split.
  - eapply Forall_impl; [exact Hkeys|]. intros r. unfold by_project_id, pid.
    unfold by_project_id. by destruct (project_id r).
  - rewrite (groupby_runs _ _ pid) in Hp by done.
    apply traverse_inr in Hp.
    eapply Forall2_impl; [exact Hp|].
    intros [k g] [k' l] (l' & Hl' & [= <- <-])%bind_inr. done.
Qed.

Lemma sdks_by_project_pairs_well_formed data :
  Forall (λ r, well_formed r = true) data →
  sdks_by_project_pairs data
  = inr ((λ kg, (kg.1, value [] (latest_sdks kg.2))) <$> runs pid data).
Proof.
  intros Hwf. unfold sdks_by_project_pairs.
  rewrite (groupby_runs _ _ pid).
  2:{ eapply Forall_impl; [exact Hwf|]. by intros r [? _]%well_formed_keys. }
  apply traverse_pure, Forall_forall. intros [k g] Hkg. cbn [fst snd].
  destruct (latest_sdks_entries g) as (sdks & -> & _); [|done].
  apply Forall_forall. intros r Hr. rewrite Forall_forall in Hwf.
  apply Hwf. by apply (runs_elem_of pid k g).
Qed.

Lemma sdks_by_project_returns data :
  Forall (λ r, well_formed r = true) data → returns (sdks_by_project data).
Proof.
  intros Hwf. unfold sdks_by_project.
  rewrite sdks_by_project_pairs_well_formed by done. by eexists.
Qed.

(** C9. Grouping by project is by contiguous runs. Let [g] be the last run
    of rows with project id [p]: a non-empty block of rows of [p], with no
    row of [p] just before it and none anywhere after it. Whatever rows of
    [p] came in earlier runs, the mapping keeps for [p] the SDK list built
    from [g] alone. (The reduction returns on all well-formed input.) *)
Theorem last_run_wins (pre g post : list Row) (p : Z) :
  g ≠ [] →
  Forall (λ r, project_id r = Some p) g →
  (∀ x, last pre = Some x → project_id x ≠ Some p) →
  Forall (λ r, project_id r ≠ Some p) post →
  (Forall (λ r, well_formed r = true) (pre ++ g ++ post) →
   returns (sdks_by_project (pre ++ g ++ post))) ∧
  (∀ m, sdks_by_project (pre ++ g ++ post) = inr m →
        ∃ sdks, latest_sdks g = inr sdks ∧ m !! p = Some sdks).
Proof.
  intros Hne Hg Hpre Hpost. split; [apply sdks_by_project_returns|].
  intros m (pairs & Hpairs & [= <-])%bind_inr.
  apply sdks_by_project_pairs_runs in Hpairs as [Hids Hpairs].
  rewrite !Forall_app in Hids. destruct Hids as (Hids_pre & Hids_g & Hids_post).
  assert (Hgp : Forall (λ r, pid r = p) g).
  { rewrite Forall_forall in *. intros r Hr.
    specialize (Hg r Hr). rewrite (Hids_g r Hr) in Hg. by injection Hg. }
  assert (Hpostp : ∀ y, y ∈ post → pid y ≠ p).
  { rewrite Forall_forall in *. intros y Hy Heq.
    apply (Hpost y Hy). by rewrite (Hids_post y Hy), Heq. }
  rewrite runs_app, (runs_group_app pid p) in Hpairs; [|done|done|..].
  - apply Forall2_app_inv_l in Hpairs as (ps1 & ps2 & _ & Hps2 & ->).
    apply Forall2_cons_inv_l in Hps2 as ([p' sdks] & ps2' & [Hp' Hsdks] & Hps2' & ->).
    cbn [fst snd] in *. subst p'. exists sdks. split; [done|].
    apply dict_lookup_last.
    rewrite (Forall2_keys (λ g l, latest_sdks g = inr l) _ _ Hps2').
    intros (y & Hy & Hyp)%elem_of_runs_key. by apply (Hpostp y).
  - intros y Hy%head_Some_elem_of. by apply Hpostp.
  - intros x y Hx Hy. destruct g as [|h g']; [done|]. injection Hy as <-.
    apply Forall_cons in Hgp as [-> _]. intros Heq.
    apply (Hpre x Hx). rewrite Forall_forall in Hids_pre.
    rewrite (Hids_pre x (last_Some_elem_of _ _ Hx)). by rewrite Heq.
Qed.

Lemma last_run_wins_witness :
  ∃ sdks,
    latest_sdks [row 1 "a" "1.0" 3] = inr sdks ∧
    dict [(1, [{| name := "a"; version := "2.0" |}]);
          (2, [{| name := "a"; version := "1.0" |}]);
          (1, [{| name := "a"; version := "1.0" |}])] !! 1 = Some sdks.
Proof.
  apply (proj2 (last_run_wins
                  [row 1 "a" "2.0" 1; row 2 "a" "1.0" 2] [row 1 "a" "1.0" 3] [] 1
                  ltac:(discriminate)
                  ltac:(repeat constructor)
                  ltac:(intros x [= <-]; discriminate)
                  ltac:(constructor))).
  reflexivity.
Defined.

(** ** Contiguous input *)

Lemma contiguous_tail x data : contiguous (x :: data) → contiguous data.
Proof.
  intros Hc l1 r l2 r' l3 -> Heq.
  by apply (Hc (x :: l1) r l2 r' l3).
Qed.

(** On contiguous input no project id starts two runs. *)
Lemma contiguous_NoDup data :
  Forall (λ r, project_id r = Some (pid r)) data →
  contiguous data → NoDup (runs pid data).*1.
Proof.
  induction 1 as [|x data Hx Hids IH]; intros Hc; [constructor|].
  specialize (IH (contiguous_tail _ _ Hc)).
  destruct data as [|h data]; [simpl; repeat constructor; apply not_elem_of_nil|].
  change (runs pid (x :: h :: data))
    with (match runs pid (h :: data) with
          | (k, g) :: rs =>
              if decide (pid x = k) then (k, x :: g) :: rs
              else (pid x, [x]) :: (k, g) :: rs
          | [] => [(pid x, [x])]
          end).
  destruct (runs_cons_head pid h data) as (g & rs & Hr). rewrite Hr in *.
  destruct (decide (pid x = pid h)) as [Hxh|Hxh]; [exact IH|].
  rewrite fmap_cons. apply NoDup_cons. split; [|done].
  rewrite <- Hr. intros (y & Hy & Hxy)%elem_of_runs_key. cbn [fst] in Hxy.
  apply elem_of_cons in Hy as [->|Hy]; [done|].
  apply list_elem_of_split in Hy as (a & b & ->).
  assert (Forall (λ z, project_id z = project_id x) (h :: a)) as Hha.
  { apply (Hc [] x (h :: a) y b); [done|].
    apply Forall_cons in Hids as [_ Hids].
    rewrite Forall_app, Forall_cons in Hids. destruct Hids as (_ & Hy & _).
    by rewrite Hx, Hy, Hxy. }
  apply Forall_cons in Hha as [Hh _].
  apply Forall_cons in Hids as [Hh' _].
  rewrite Hx, Hh' in Hh. by injection Hh.
Qed.

(** On well-formed, contiguous input the mapping holds, for each project
    and SDK name, nothing if no row has them, and else exactly one entry,
    with the latest version of the rows that have them. *)
Lemma reduction_entry data :
  Forall (λ r, well_formed r = true) data → contiguous data →
  ∃ m, sdks_by_project data = inr m ∧
    ∀ p n, filter (λ s, name s = n) (default [] (m !! p)) =
           if decide (group_of p n data = []) then []
           else [{| name := n;
                    version := value "" (latest_version (group_of p n data)) |}].
Proof.
  intros Hwf Hc. unfold sdks_by_project.
  rewrite sdks_by_project_pairs_well_formed by done.
  eexists. split; [done|]. intros p n.
  assert (Hids : Forall (λ r, project_id r = Some (pid r)) data).
  { eapply Forall_impl; [exact Hwf|]. by intros r [? _]%well_formed_fields. }
  pose proof (contiguous_NoDup data Hids Hc) as Hnd.
  set (mk := λ kg : Z * list Row, (kg.1, value [] (latest_sdks kg.2))).
  assert (Hkeys : (mk <$> runs pid data).*1 = (runs pid data).*1).
  { rewrite <- list_fmap_compose. by apply list_fmap_ext. }
  rewrite (group_of_filter p n data Hwf).
  destruct (decide (p ∈ (runs pid data).*1)) as [Hp|Hp].
  - apply list_elem_of_fmap in Hp as ([p' g] & -> & Hin). cbn [fst].
    rewrite (dict_lookup_NoDup _ p' (value [] (latest_sdks g))).
    + rewrite <- (runs_filter pid p' g data Hnd Hin). simpl.
      destruct (latest_sdks_entries g) as (sdks & -> & Hentries); [|apply Hentries].
      apply Forall_forall. intros r Hr. rewrite Forall_forall in Hwf.
      apply Hwf. by apply (runs_elem_of pid p' g).
    + by rewrite Hkeys.
    + apply list_elem_of_fmap. by exists (p', g).
  - rewrite dict_lookup_absent by by rewrite Hkeys. simpl.
    rewrite (filter_none (λ r, pid r = p)); [done|].
    apply Forall_forall. intros r Hr Hrp. apply Hp.
    apply elem_of_runs_key. by exists r.
Qed.

(** C1, as the code has it. On every input in which the rows are well
    formed (the three columns are there and the version parses) and the rows
    of each project are contiguous, the reduction returns a mapping with
    exactly one (name, version) entry for each (project, SDK name) group
    present in the input and none for an absent one; the version is that of
    a row of the group whose key is maximal in the group under Python's
    list order. In particular the three observations of "sentry.python"
    give "1.0.0". *)
Theorem latest_version_per_group :
  (∀ data,
     Forall (λ r, well_formed r = true) data → contiguous data →
     ∃ m, sdks_by_project data = inr m ∧
       ∀ p n,
         (group_of p n data = [] →
          filter (λ s, name s = n) (default [] (m !! p)) = []) ∧
         (group_of p n data ≠ [] →
          ∃ r v k,
            r ∈ group_of p n data ∧ sdk_version r = Some v ∧
            version_key r = inr k ∧
            filter (λ s, name s = n) (default [] (m !! p))
              = [{| name := n; version := v |}] ∧
            ∀ r' k', r' ∈ group_of p n data → version_key r' = inr k' →
                     list_leb k' k = true)) ∧
  sdks_by_project
    [row 1 "sentry.python" "0.9.0" 1; row 1 "sentry.python" "1.0.0" 2;
     row 1 "sentry.python" "0.9.5" 3]
  = inr {[ 1 := [{| name := "sentry.python"; version := "1.0.0" |}] ]}.
Proof.
  split; [|reflexivity].
  intros data Hwf Hc.
  destruct (reduction_entry data Hwf Hc) as (m & Hm & Hentry).
  exists m. split; [done|]. intros p n. rewrite Hentry. split.
  - intros Hnil. by rewrite decide_True.
  - intros Hne. rewrite decide_False by done.
    assert (Hgwf : Forall (λ r, well_formed r = true) (group_of p n data)).
    { apply Forall_forall. intros r [_ Hr]%list_elem_of_filter.
      rewrite Forall_forall in Hwf. by apply Hwf. }
    destruct (last_max_exists list_ltb vkey _ Hne)
      as (l1 & x & l2 & Hg & H1 & H2).
    rewrite Hg in Hgwf |- *.
    rewrite (latest_version_last_max l1 x l2 Hgwf H1 H2).
    assert (well_formed x = true) as (_ & _ & Hv & Hk)%well_formed_fields.
    { rewrite Forall_app, Forall_cons in Hgwf. by destruct Hgwf as (_ & ? & _). }
    exists x, (vstring x), (vkey x). split; [|split; [done|split; [done|split; [done|]]]].
    { apply elem_of_app. right. by left. }
    intros r' k' Hr' Hk'. unfold list_leb. apply negb_true_iff.
    assert (vkey r' = k') as <- by (unfold vkey; by rewrite Hk').
    apply elem_of_app in Hr' as [Hr'|Hr'].
    + rewrite Forall_forall in H1. by apply H1.
    + apply elem_of_cons in Hr' as [->|Hr']; [apply list_ltb_irrefl|].
      rewrite Forall_forall in H2.
      exact (ltb_asym list_ltb _ _ (H2 _ Hr')).
Qed.

(** A result ordered by project id has the rows of each project next to
    each other. *)
Lemma ordered_contiguous data :
  Forall (λ r, project_id r = Some (pid r)) data →
  ordered_by_project data → contiguous data.
Proof.
  intros Hids Hs l1 r l2 r' l3 -> Heq.
  rewrite Forall_app, Forall_cons, Forall_app, Forall_cons in Hids.
  destruct Hids as (_ & Hr & Hl2 & Hr' & _).
  apply StronglySorted_app_1_r, StronglySorted_cons in Hs as [Hbelow Hs].
  apply Forall_forall. intros z Hz.
  rewrite Forall_forall in Hl2. rewrite (Hl2 z Hz), Hr. f_equal.
  assert (pid r = pid r') as Hpp by (rewrite Hr, Hr' in Heq; by injection Heq).
  assert (pid z ≤ pid r).
  { rewrite Forall_forall in Hbelow. apply Hbelow, elem_of_app. by left. }
  assert (pid r' ≤ pid z).
  { apply (StronglySorted_app_1_elem_of _ _ _ _ _ Hs Hz). by left. }
  lia.
Qed.

Lemma latest_version_per_group_witness :
  let data := [row 2 "sentry.python" "0.9.0" 1; row 2 "sentry.python" "1.0.0" 2;
               row 1 "sentry.java" "1.2" 3] in
  ∃ m, sdks_by_project data = inr m ∧
    ∀ p n,
      (group_of p n data = [] →
       filter (λ s, name s = n) (default [] (m !! p)) = []) ∧
      (group_of p n data ≠ [] →
       ∃ r v k,
         r ∈ group_of p n data ∧ sdk_version r = Some v ∧
         version_key r = inr k ∧
         filter (λ s, name s = n) (default [] (m !! p))
           = [{| name := n; version := v |}] ∧
         ∀ r' k', r' ∈ group_of p n data → version_key r' = inr k' →
                  list_leb k' k = true).
Proof.
  intros data. apply (proj1 latest_version_per_group data).
  - repeat constructor.
  - apply ordered_contiguous; repeat constructor; vm_compute; discriminate.
Defined.

(** C1 fails as stated: when the rows of project 1 are not contiguous, the
    mapping keeps version "1.0" for ("a" of project 1) although the group
    holds "2.0", whose key is greater. *)
Lemma latest_version_per_group_counterexample :
  let data := [row 1 "a" "2.0" 1; row 2 "a" "1.0" 2; row 1 "a" "1.0" 3] in
  ∃ m, sdks_by_project data = inr m ∧
    m !! 1 = Some [{| name := "a"; version := "1.0" |}] ∧
    group_of 1 "a" data = [row 1 "a" "2.0" 1; row 1 "a" "1.0" 3] ∧
    parse_version "1.0" = inr [1; 0] ∧ parse_version "2.0" = inr [2; 0] ∧
    list_ltb [1; 0] [2; 0] = true.
Proof. eexists. repeat split; reflexivity. Qed.

(** C4, as the code has it. In a (project, SDK name) group of a
    well-formed, contiguous input, let [r] be the last row, in input order,
    among the rows with the maximal key: no row before it has a greater key
    and every row after it has a smaller one. The reduction selects the
    version string of [r]; the last-seen timestamps are not consulted. *)
Theorem ties_select_last_in_input data p n l1 r l2 :
  Forall (λ x, well_formed x = true) data → contiguous data →
  group_of p n data = l1 ++ r :: l2 →
  Forall (λ y, list_leb (vkey y) (vkey r) = true) l1 →
  Forall (λ y, list_ltb (vkey y) (vkey r) = true) l2 →
  ∃ m v, sdks_by_project data = inr m ∧ sdk_version r = Some v ∧
    filter (λ s, name s = n) (default [] (m !! p))
      = [{| name := n; version := v |}].
Proof.
  intros Hwf Hc Hg H1 H2.
  destruct (reduction_entry data Hwf Hc) as (m & Hm & Hentry).
  assert (Hgwf : Forall (λ x, well_formed x = true) (l1 ++ r :: l2)).
  { rewrite <- Hg. apply Forall_forall. intros x [_ Hx]%list_elem_of_filter.
    rewrite Forall_forall in Hwf. by apply Hwf. }
  assert (well_formed r = true) as (_ & _ & Hv & _)%well_formed_fields.
  { rewrite Forall_app, Forall_cons in Hgwf. by destruct Hgwf as (_ & ? & _). }
  exists m, (vstring r). split; [done|]. split; [done|].
  rewrite Hentry, Hg, decide_False by by destruct l1.
  rewrite (latest_version_last_max l1 r l2); [done|done| |done].
  eapply Forall_impl; [exact H1|]. intros y Hy. by apply negb_true_iff.
Qed.

Lemma ties_select_last_in_input_witness :
  ∃ m v,
    sdks_by_project [row 1 "a" "1.0" 5; row 1 "a" "0.9" 7; row 1 "a" "1.00" 1;
                     row 1 "a" "0.1" 9]
    = inr m ∧
    sdk_version (row 1 "a" "1.00" 1) = Some v ∧
    filter (λ s, name s = "a") (default [] (m !! 1))
      = [{| name := "a"; version := v |}].
Proof.
  apply (ties_select_last_in_input _ 1 "a"
           [row 1 "a" "1.0" 5; row 1 "a" "0.9" 7] (row 1 "a" "1.00" 1)
           [row 1 "a" "0.1" 9]).
  - repeat constructor.
  - apply ordered_contiguous; repeat constructor; vm_compute; discriminate.
  - reflexivity.
  - repeat constructor.
  - repeat constructor.
Defined.

(** C4 fails as stated: of two rows with the same key the later one is
    selected, whether the earlier one was seen last ("1.0" at 5 against
    "1.00" at 1) or at the same time ("1.0" against "01.0", both at 5). *)
Lemma ties_counterexample :
  parse_version "1.0" = inr [1; 0] ∧ parse_version "1.00" = inr [1; 0] ∧
  parse_version "01.0" = inr [1; 0] ∧
  latest_version [row 1 "a" "1.0" 5; row 1 "a" "1.00" 1] = inr "1.00" ∧
  latest_version [row 1 "a" "1.0" 5; row 1 "a" "01.0" 5] = inr "01.0" ∧
  sdks_by_project [row 1 "a" "1.0" 5; row 1 "a" "1.00" 1]
  = inr {[ 1 := [{| name := "a"; version := "1.00" |}] ]}.
Proof. repeat split; reflexivity. Qed.

(** ** Columns the reduction does not read *)

Lemma traverse_fmap {A B C} (f : B → result C) (g : A → B) l :
  traverse f (g <$> l) = traverse (λ x, f (g x)) l.
Proof.
  induction l as [|x l IH]; [done|].
  rewrite fmap_cons. cbn [traverse]. by rewrite IH.
Qed.

Lemma traverse_ext {A B} (f f' : A → result B) l :
  (∀ x, f x = f' x) → traverse f l = traverse f' l.
Proof. intros Hf. induction l as [|x l IH]; simpl; [done|]. by rewrite Hf, IH. Qed.

Lemma traverse_post {A B C} (f : A → result B) (h : B → C) l :
  traverse (λ x, y ← f x; mret (h y)) l = ys ← traverse f l; mret (h <$> ys).
Proof.
  induction l as [|x l IH]; simpl; [done|].
  destruct (f x) as [e|y]; simpl; [done|]. rewrite IH.
  by destruct (traverse f l).
Qed.

Section Unread.
Context {A K : Type} (g : A → A).

Lemma insert_keyed_fmap (ltb : K → K → bool) k x (d : list (K * A)) :
  insert_keyed ltb (k, g x) (prod_map Datatypes.id g <$> d)
  = prod_map Datatypes.id g <$> insert_keyed ltb (k, x) d.
Proof.
  induction d as [|[k' y] d IH]; [done|].
  rewrite fmap_cons. cbn [insert_keyed prod_map fst Datatypes.id].
  destruct (ltb k' k); [|done]. by rewrite fmap_cons, IH.
Qed.

Lemma sort_keyed_fmap (ltb : K → K → bool) (d : list (K * A)) :
  sort_keyed ltb (prod_map Datatypes.id g <$> d) = prod_map Datatypes.id g <$> sort_keyed ltb d.
Proof.
  unfold sort_keyed. induction d as [|[k x] d IH]; [done|].
  rewrite fmap_cons. cbn [foldr]. rewrite IH. apply insert_keyed_fmap.
Qed.

Lemma sorted_fmap (ltb : K → K → bool) (key : A → result K) l :
  (∀ x, key (g x) = key x) →
  sorted ltb key (g <$> l) = l' ← sorted ltb key l; mret (g <$> l').
Proof.
  intros Hkey. unfold sorted. rewrite traverse_fmap.
  rewrite (traverse_ext _ (λ x, kx ← (k ← key x; mret (k, x));
                                mret (prod_map Datatypes.id g kx))).
  2:{ intros x. rewrite Hkey. by destruct (key x). }
  rewrite traverse_post.
  destruct (traverse (λ x, k ← key x; mret (k, x)) l) as [e|d]; [done|].
  simpl. rewrite sort_keyed_fmap, <- !list_fmap_compose. done.
Qed.

Context {B : Type} `{EqDecision K}.

Lemma groupby_from_fmap (key : A → result K) (body : K → list A → result B)
    k group l :
  (∀ x, key (g x) = key x) →
  groupby_from key body k (g <$> group) (g <$> l)
  = groupby_from key (λ k grp, body k (g <$> grp)) k group l.
Proof.
  intros Hkey. revert k group.
  induction l as [|x l IH]; intros k group; rewrite ?fmap_cons;
    cbn [groupby_from].
  - by rewrite fmap_reverse.
  - rewrite Hkey. destruct (key x) as [e|k']; [done|]. simpl.
    destruct (decide (k' = k)).
    + by rewrite <- IH.
    + rewrite fmap_reverse. by rewrite <- (IH k' [x]).
Qed.

Lemma groupby_fmap (key : A → result K) (body : K → list A → result B) l :
  (∀ x, key (g x) = key x) →
  groupby key body (g <$> l) = groupby key (λ k grp, body k (g <$> grp)) l.
Proof.
  intros Hkey. destruct l as [|x l]; [done|].
  rewrite fmap_cons. unfold groupby. rewrite Hkey.
  destruct (key x) as [e|k]; [done|]. simpl.
  by rewrite <- (groupby_from_fmap key body k [x]).
Qed.

Lemma groupby_from_ext (key : A → result K) (body body' : K → list A → result B)
    k group l :
  (∀ k grp, body k grp = body' k grp) →
  groupby_from key body k group l = groupby_from key body' k group l.
Proof.
  intros Hb. revert k group. induction l as [|x l IH]; intros k group;
    cbn [groupby_from]; [by rewrite Hb|].
  destruct (key x) as [e|k']; [done|]. simpl.
  destruct (decide (k' = k)); [apply IH|]. by rewrite Hb, IH.
Qed.

Lemma groupby_ext (key : A → result K) (body body' : K → list A → result B) l :
  (∀ k grp, body k grp = body' k grp) →
  groupby key body l = groupby key body' l.
Proof.
  intros Hb. destruct l as [|x l]; [done|]. unfold groupby.
  destruct (key x) as [e|k]; [done|]. simpl. by apply groupby_from_ext.
Qed.
End Unread.

Section UnreadColumn.
Variable g : Row → Row.
Hypothesis g_project_id : ∀ r, project_id (g r) = project_id r.
Hypothesis g_sdk_name : ∀ r, sdk_name (g r) = sdk_name r.
Hypothesis g_sdk_version : ∀ r, sdk_version (g r) = sdk_version r.

Lemma latest_version_unread sdks :
  latest_version (g <$> sdks) = latest_version sdks.
Proof.
  unfold latest_version. rewrite sorted_fmap.
  2:{ intros r. unfold version_key. by rewrite g_sdk_version. }
  destruct (sorted list_ltb version_key sdks) as [e|l]; [done|]. simpl.
  unfold pop. rewrite fmap_last. destruct (last l) as [r|]; [|done].
  simpl. by rewrite g_sdk_version.
Qed.

Lemma latest_sdks_unread sdks_used :
  latest_sdks (g <$> sdks_used) = latest_sdks sdks_used.
Proof.
  unfold latest_sdks. rewrite sorted_fmap.
  2:{ intros r. unfold by_sdk_name. by rewrite g_sdk_name. }
  destruct (sorted str_ltb by_sdk_name sdks_used) as [e|l]; [done|]. simpl.
  rewrite groupby_fmap.
  2:{ intros r. unfold by_sdk_name. by rewrite g_sdk_name. }
  apply groupby_ext. intros k grp. by rewrite latest_version_unread.
Qed.

Lemma sdks_by_project_unread data :
  sdks_by_project (g <$> data) = sdks_by_project data.
Proof.
  unfold sdks_by_project, sdks_by_project_pairs. rewrite groupby_fmap.
  2:{ intros r. unfold by_project_id. by rewrite g_project_id. }
  f_equal. apply groupby_ext. intros k grp. by rewrite latest_sdks_unread.
Qed.
End UnreadColumn.

(** C10. In a group given to the version sort, let [r] be the last row with
    the maximal key (no row before it has a greater key, every row after it
    a smaller one; the rows with a key equal to that of [r] all come before
    it). The stable sort followed by [pop] selects the version string of
    [r], and does so whatever the last-seen timestamps of the rows are. *)
Theorem equal_keys_select_last (l1 l2 : list Row) (r : Row) :
  Forall (λ x, well_formed x = true) (l1 ++ r :: l2) →
  Forall (λ y, list_leb (vkey y) (vkey r) = true) l1 →
  Forall (λ y, list_ltb (vkey y) (vkey r) = true) l2 →
  ∃ v, sdk_version r = Some v ∧
    latest_version (l1 ++ r :: l2) = inr v ∧
    ∀ f, latest_version (with_last_seen f <$> (l1 ++ r :: l2)) = inr v.
Proof.
  intros Hwf H1 H2.
  assert (well_formed r = true) as (_ & _ & Hv & _)%well_formed_fields.
  { rewrite Forall_app, Forall_cons in Hwf. by destruct Hwf as (_ & ? & _). }
  assert (latest_version (l1 ++ r :: l2) = inr (vstring r)) as Hlatest.
  { apply latest_version_last_max; [done| |done].
    eapply Forall_impl; [exact H1|]. intros y Hy. by apply negb_true_iff. }
  exists (vstring r). split; [done|]. split; [done|].
  intros f. by rewrite latest_version_unread.
Qed.

Lemma equal_keys_select_last_witness :
  ∃ v, sdk_version (row 1 "a" "01.0" 2) = Some v ∧
    latest_version ([row 1 "a" "1.0" 9; row 1 "a" "0.5" 3]
                    ++ row 1 "a" "01.0" 2 :: [row 1 "a" "0.9" 8]) = inr v ∧
    ∀ f, latest_version
           (with_last_seen f <$> ([row 1 "a" "1.0" 9; row 1 "a" "0.5" 3]
                                  ++ row 1 "a" "01.0" 2 :: [row 1 "a" "0.9" 8]))
         = inr v.
Proof.
  apply (equal_keys_select_last
           [row 1 "a" "1.0" 9; row 1 "a" "0.5" 3] [row 1 "a" "0.9" 8]
           (row 1 "a" "01.0" 2)); repeat constructor.
Defined.

(** ** Raising rows *)

Lemma traverse_returns {A B} (f : A → result B) l :
  Forall (λ x, returns (f x)) l → returns (traverse f l).
Proof.
  induction 1 as [|x l [y Hy] _ [ys Hys]]; [by eexists|].
  exists (y :: ys). simpl. by rewrite Hy, Hys.
Qed.

Lemma latest_version_returns_inv sdks :
  returns (latest_version sdks) → Forall (λ r, returns (version_key r)) sdks.
Proof.
  intros [v (l & Hl & _)%bind_inr].
  apply (sorted_returns list_ltb). by exists l.
Qed.

Lemma latest_sdks_returns_inv sdks_used :
  returns (latest_sdks sdks_used) →
  Forall (λ r, returns (by_sdk_name r) ∧ returns (version_key r)) sdks_used.
Proof.
  intros [sdks (l & Hsorted & Hgroups)%bind_inr].
  assert (Hnames : Forall (λ r, returns (by_sdk_name r)) sdks_used).
  { apply (sorted_returns str_ltb). by exists l. }
  assert (Hkeys : Forall (λ r, by_sdk_name r = inr (sname r)) sdks_used).
  { eapply Forall_impl; [exact Hnames|]. intros r. apply returns_value. }
  rewrite (sorted_sort_by str_ltb sname) in Hsorted by done.
  injection Hsorted as <-.
  rewrite (groupby_runs _ _ sname) in Hgroups.
  2:{ apply Forall_forall. intros r Hr%elem_of_sort_by.
      rewrite Forall_forall in Hkeys. by apply Hkeys. }
  assert (returns (traverse
            (λ kg : string * list Row,
               v ← latest_version kg.2; mret {| name := kg.1; version := v |})
            (runs sname (sort_by str_ltb sname sdks_used)))) as Hruns
    by by exists sdks.
  apply traverse_returns_all in Hruns.
  rewrite Forall_forall in Hruns. rewrite Forall_forall in Hnames.
  apply Forall_forall. intros r Hr. split; [by apply Hnames|].
  assert (r ∈ mjoin (runs sname (sort_by str_ltb sname sdks_used)).*2) as Hin.
  { rewrite runs_concat. by apply elem_of_sort_by. }
  apply list_elem_of_join in Hin as (grp & Hrg & ([n grp'] & -> & Hin)%list_elem_of_fmap).
  destruct (Hruns _ Hin) as [sdk (v & Hv & _)%bind_inr].
  assert (returns (latest_version grp')) as Hret by by exists v.
  apply latest_version_returns_inv in Hret.
  rewrite Forall_forall in Hret. by apply Hret.
Qed.

(** The reduction returns only if every row is well formed. *)
Lemma sdks_by_project_returns_inv data :
  returns (sdks_by_project data) → Forall (λ r, well_formed r = true) data.
Proof.
  intros [m (pairs & Hpairs & _)%bind_inr].
  unfold sdks_by_project_pairs in Hpairs.
  assert (Hids : Forall (λ r, returns (by_project_id r)) data).
  { eapply groupby_returns. by eexists. }
  rewrite (groupby_runs _ _ pid) in Hpairs.
  2:{ eapply Forall_impl; [exact Hids|]. intros r. apply returns_value. }
  assert (returns (traverse
            (λ kg : Z * list Row, l ← latest_sdks kg.2; mret (kg.1, l))
            (runs pid data))) as Hruns by by exists pairs.
  apply traverse_returns_all in Hruns.
  rewrite Forall_forall in Hruns. rewrite Forall_forall in Hids.
  apply Forall_forall. intros r Hr.
  assert (r ∈ mjoin (runs pid data).*2) as Hin by by rewrite runs_concat.
  apply list_elem_of_join in Hin as (g & Hrg & ([p g'] & -> & Hin)%list_elem_of_fmap).
  destruct (Hruns _ Hin) as [pr (l & Hl & _)%bind_inr].
  assert (returns (latest_sdks g')) as Hret by by exists l.
  apply latest_sdks_returns_inv in Hret. rewrite Forall_forall in Hret.
  destruct (Hret r Hrg). apply returns_well_formed; [by apply Hids|done..].
Qed.

(** C7, as the code has it. No record is dropped and no count is kept. The
    "last_seen()" column is never read: replacing or removing it in any
    rows changes nothing, so a record without it is reduced like any other.
    A record without "project.id", "sdk.name" or "sdk.version" makes the
    whole reduction raise, and no other record is reduced. *)
Theorem missing_field_is_ignored_or_fatal (data : list Row) :
  (∀ f, sdks_by_project (with_last_seen f <$> data) = sdks_by_project data) ∧
  (Exists (λ r, project_id r = None ∨ sdk_name r = None ∨ sdk_version r = None)
     data →
   raises (sdks_by_project data)).
Proof.
  split.
  - intros f. by apply sdks_by_project_unread.
  - intros (r & Hr & Hmissing)%Exists_exists.
    destruct (sdks_by_project data) as [e|m] eqn:Hm; [by exists e|].
    assert (returns (sdks_by_project data)) as Hret by by exists m.
    apply sdks_by_project_returns_inv in Hret.
    rewrite Forall_forall in Hret. specialize (Hret r Hr).
    apply well_formed_fields in Hret as (Hp & Hn & Hv & _).
    destruct Hmissing as [?|[?|?]]; congruence.
Qed.

Lemma missing_field_is_ignored_or_fatal_witness :
  raises (sdks_by_project
            [row 1 "a" "1.0" 1;
             {| project_id := Some 1; sdk_name := Some "a";
                sdk_version := None; last_seen := Some 2 |}]).
Proof.
  apply (proj2 (missing_field_is_ignored_or_fatal _)).
  apply Exists_cons_tl, Exists_cons_hd. right. right. reflexivity.
Defined.

(** C7 fails as stated: a record without "last_seen()" is not dropped, its
    version "2.0" is the one reported; and a record without "sdk.version"
    is fatal, the valid record next to it is not reduced. *)
Lemma missing_field_counterexample :
  sdks_by_project
    [row 1 "a" "1.0" 1;
     {| project_id := Some 1; sdk_name := Some "a";
        sdk_version := Some "2.0"; last_seen := None |}]
  = inr {[ 1 := [{| name := "a"; version := "2.0" |}] ]} ∧
  sdks_by_project
    [row 1 "a" "1.0" 1;
     {| project_id := Some 1; sdk_name := Some "a";
        sdk_version := None; last_seen := Some 2 |}]
  = inl (KeyError "sdk.version").
Proof. split; reflexivity. Qed.

(** C6. The reduction is a function of the rows alone: run twice on the
    same rows it returns the same mapping twice, or raises the same
    exception at the first run. *)
Theorem reduce_twice_identical (data : list Row) :
  reduce_twice data = (m ← sdks_by_project data; mret (m, m)) ∧
  ∀ first second, reduce_twice data = inr (first, second) → first = second.
Proof.
  unfold reduce_twice. destruct (sdks_by_project data) as [e|m]; simpl.
  - split; [done|]. intros ? ? [=].
  - split; [done|]. by intros ? ? [= <- <-].
Qed.

Lemma reduce_twice_identical_witness :
  {[ 1 := [{| name := "a"; version := "1.0" |}] ]}
  =@{gmap Z (list Sdk)} {[ 1 := [{| name := "a"; version := "1.0" |}] ]}.
Proof.
  apply (proj2 (reduce_twice_identical [row 1 "a" "1.0" 1])). reflexivity.
Defined.

(** ** The final mapping *)

Lemma dict_lookup_present {K V} `{Countable K} (l : list (K * V)) k :
  k ∈ l.*1 → is_Some (dict l !! k).
Proof.
  induction l as [|[k' v'] l IH] using rev_ind; [by intros ?%elem_of_nil|].
  rewrite fmap_app, dict_snoc. intros Hk.
  destruct (decide (k' = k)) as [->|Hne].
  - rewrite lookup_insert_eq. by eexists.
  - rewrite lookup_insert_ne by done. apply IH.
    apply elem_of_app in Hk as [Hk|Hk]; [done|].
    apply list_elem_of_singleton in Hk. by destruct Hne.
Qed.

(** A project without rows has no entry in [sdks_by_project]. *)
Lemma sdks_by_project_absent data m p :
  sdks_by_project data = inr m →
  Forall (λ r, project_id r ≠ Some p) data → m !! p = None.
Proof.
  intros (pairs & Hpairs & [= <-])%bind_inr Hnone.
  apply sdks_by_project_pairs_runs in Hpairs as [Hids Hpairs].
  apply dict_lookup_absent.
  rewrite (Forall2_keys (λ g l, latest_sdks g = inr l) _ _ Hpairs).
  intros (y & Hy & Hyp)%elem_of_runs_key.
  rewrite Forall_forall in Hids, Hnone.
  apply (Hnone y Hy). by rewrite (Hids y Hy), Hyp.
Qed.

Section EndpointFacts.
Context {SdkIndexState Suggestions : Type}.
Variable get_suggested_updates : SdkSetupState → SdkIndexState → result Suggestions.
Variable index_state : SdkIndexState.

Abbreviation per_project sdks :=
  (λ project : Project,
     l ← traverse (suggest get_suggested_updates index_state)
           (default [] (sdks !! id project));
     mret (id project, l)).

Lemma project_pairs (sdks : gmap Z (list Sdk)) projects prs :
  traverse (per_project sdks) projects = inr prs →
  (∀ project, project ∈ projects → id project ∈ prs.*1) ∧
  (∀ k v, (k, v) ∈ prs →
     traverse (suggest get_suggested_updates index_state)
       (default [] (sdks !! k)) = inr v).
Proof.
  intros Hprs%traverse_inr.
  induction Hprs as [|project [k v] projects prs Hhead _ [IH1 IH2]].
  { split; [by intros ? ?%elem_of_nil|by intros ? ? ?%elem_of_nil]. }
  apply bind_inr in Hhead as (l & Hl & [= <- <-]). split.
  - intros project' [->|Hin]%elem_of_cons; rewrite fmap_cons.
    + by left.
    + right. by apply IH1.
  - intros k v [[= -> ->]|Hin]%elem_of_cons; [done|by apply IH2].
Qed.

Lemma get_keys projects data m :
  get get_suggested_updates index_state projects data = inr m →
  ∀ project, project ∈ projects →
    is_Some (m !! id project) ∧
    (Forall (λ r, project_id r ≠ Some (id project)) data →
     m !! id project = Some []).
Proof.
  intros (sdks & Hsdks & (prs & Hprs & [= <-])%bind_inr)%bind_inr.
  destruct (project_pairs sdks projects prs Hprs) as [Hkeys Hvals].
  intros project Hin.
  destruct (dict_lookup_present prs (id project) (Hkeys _ Hin)) as [v Hv].
  split; [by exists v|]. intros Hnone. rewrite Hv. f_equal.
  apply dict_lookup_Some, Hvals in Hv.
  rewrite (sdks_by_project_absent data sdks (id project) Hsdks Hnone) in Hv.
  simpl in Hv. by injection Hv.
Qed.

Lemma get_returns projects data :
  Forall (λ r, well_formed r = true) data →
  (∀ s, returns (get_suggested_updates s index_state)) →
  returns (get get_suggested_updates index_state projects data).
Proof.
  intros [sdks Hsdks]%sdks_by_project_returns Hsuggest.
  unfold get. rewrite Hsdks. simpl.
  destruct (traverse_returns (per_project sdks) projects) as [prs ->];
    [|by eexists].
  apply Forall_forall. intros project _.
  destruct (traverse_returns (suggest get_suggested_updates index_state)
              (default [] (sdks !! id project))) as [l Hl].
  { apply Forall_forall. intros sdk _. apply Hsuggest. }
  exists (id project, l). cbv beta. by rewrite Hl.
Qed.
End EndpointFacts.




(** ** The model at work *)

Example split_dot_keeps_empty_pieces :
  split_dot "1..2" = ["1"; ""; "2"] ∧ split_dot "" = [""] ∧
  split_dot "1." = ["1"; ""].
Proof. repeat split; reflexivity. Qed.

Example int_literals :
  int " 12 " = inr 12 ∧ int "-3" = inr (-3) ∧ int "+4" = inr 4 ∧
  int "007" = inr 7 ∧ int "1_000" = inr 1000 ∧
  int "" = inl ValueError ∧ int "1__0" = inl ValueError ∧
  int "- 1" = inl ValueError ∧ int "rc1" = inl ValueError.
Proof. repeat split; reflexivity. Qed.

Example two_projects_two_sdks :
  sdks_by_project
    [row 2 "sentry.python" "0.14.3" 10; row 2 "sentry.javascript" "5.9.0" 11;
     row 2 "sentry.python" "0.9.10" 12; row 1 "sentry.python" "0.14.3" 13]
  = inr {[ 2 := [{| name := "sentry.javascript"; version := "5.9.0" |};
                 {| name := "sentry.python"; version := "0.14.3" |}];
           1 := [{| name := "sentry.python"; version := "0.14.3" |}] ]}.
Proof. reflexivity. Qed.

Example endpoint_on_two_projects :
  get (λ s (_ : unit), inr (setup_sdk_name s, setup_sdk_version s)) tt
    [ {| id := 1 |}; {| id := 7 |} ]
    [row 2 "a" "1.0" 2; row 1 "a" "2.0" 1; row 1 "b" "0.1" 3]
  = inr {[ 1 := [("a", "2.0"); ("b", "0.1")]; 7 := [] ]}.
Proof. reflexivity. Qed.

(** * Further properties of the endpoint *)

(** ** Which exceptions the reduction raises *)

Lemma traverse_raises_only {A B} (P : exn → Prop) (f : A → result B) l e :
  (∀ x e', f x = inl e' → P e') → traverse f l = inl e → P e.
Proof.
  intros Hf. induction l as [|x l IH]; simpl; [done|].
  destruct (f x) as [e'|y] eqn:Hx; simpl.
  - intros [= <-]. by apply (Hf x).
  - destruct (traverse f l); simpl; [|done]. intros [= <-]. by apply IH.
Qed.

Lemma sorted_raises_only {A K} (P : exn → Prop) (ltb : K → K → bool)
    (key : A → result K) l e :
  (∀ x e', key x = inl e' → P e') → sorted ltb key l = inl e → P e.
Proof.
  intros Hkey. unfold sorted.
  destruct (traverse (λ x, k ← key x; mret (k, x)) l) as [e'|d] eqn:Hd; [|done].
  simpl. intros [= <-]. apply (traverse_raises_only P _ _ _ ) with (2 := Hd).
  intros x e0. destruct (key x) as [e1|k] eqn:Hx; [|done].
  simpl. intros [= <-]. by apply (Hkey x).
Qed.

Lemma sorted_length {A K} (ltb : K → K → bool) (key : A → result K) l l' :
  sorted ltb key l = inr l' → length l' = length l.
Proof.
  intros (d & Hd & [= <-])%bind_inr.
  apply traverse_inr, Forall2_length in Hd.
  rewrite length_fmap, Hd. clear Hd.
  unfold sort_keyed. induction d as [|kx d IH]; [done|].
  cbn [foldr length]. rewrite <- IH. generalize (foldr (insert_keyed ltb) [] d).
  intros s. induction s as [|ky s IHs]; [done|].
  cbn [insert_keyed]. destruct (ltb ky.1 kx.1); cbn [length]; [by rewrite IHs|done].
Qed.

Lemma pop_returns {A} (l : list A) : l ≠ [] → returns (pop l).
Proof.
  intros Hl. unfold pop. destruct (last l) as [x|] eqn:Hlast; [by exists x|].
  by apply last_None in Hlast.
Qed.

Lemma groupby_from_raises_only {A K B} `{EqDecision K} (P : exn → Prop)
    (key : A → result K) (body : K → list A → result B) k group l e :
  (∀ x e', key x = inl e' → P e') →
  (∀ k g e', g ≠ [] → body k g = inl e' → P e') →
  group ≠ [] →
  groupby_from key body k group l = inl e → P e.
Proof.
  intros Hkey Hbody. revert k group.
  assert (Hrev : ∀ g : list A, g ≠ [] → reverse g ≠ []).
  { intros g Hg Hr. apply Hg. by rewrite <- (reverse_involutive g), Hr. }
  induction l as [|x l IH]; intros k group Hne; cbn [groupby_from].
  - destruct (body k (reverse group)) as [e'|b] eqn:Hb; [|done].
    simpl. intros [= <-]. apply (Hbody k (reverse group)); auto.
  - destruct (key x) as [e'|k'] eqn:Hx; simpl.
    { intros [= <-]. by apply (Hkey x). }
    destruct (decide (k' = k)); [by apply IH|].
    destruct (body k (reverse group)) as [e'|b] eqn:Hb; simpl.
    { intros [= <-]. apply (Hbody k (reverse group)); auto. }
    destruct (groupby_from key body k' [x] l) as [e'|bs] eqn:Hrest; [|done].
    simpl. intros [= <-]. by apply (IH k' [x]).
Qed.

Lemma groupby_raises_only {A K B} `{EqDecision K} (P : exn → Prop)
    (key : A → result K) (body : K → list A → result B) l e :
  (∀ x e', key x = inl e' → P e') →
  (∀ k g e', g ≠ [] → body k g = inl e' → P e') →
  groupby key body l = inl e → P e.
Proof.
  intros Hkey Hbody. destruct l as [|x l]; [done|]. unfold groupby.
  destruct (key x) as [e'|k] eqn:Hx; simpl.
  - intros [= <-]. by apply (Hkey x).
  - by apply groupby_from_raises_only.
Qed.

Lemma getitem_raises {A} key (field : option A) e :
  getitem key field = inl e → e = KeyError key.
Proof. destruct field; [done|]. by intros [= <-]. Qed.

Lemma version_key_raises r e : version_key r = inl e → raised_by_row e = true.
Proof.
  unfold version_key. destruct (sdk_version r) as [v|]; simpl.
  - by intros ->%(traverse_raises_only (λ e, e = ValueError) int _ _
                     int_raises_ValueError).
  - by intros [= <-].
Qed.

Lemma latest_version_raises sdks e :
  sdks ≠ [] → latest_version sdks = inl e → raised_by_row e = true.
Proof.
  intros Hne. unfold latest_version.
  destruct (sorted list_ltb version_key sdks) as [e'|l] eqn:Hsorted; simpl.
  - intros [= <-].
    apply (sorted_raises_only (λ e, raised_by_row e = true) _ _ _ _
             version_key_raises Hsorted).
  - destruct (pop_returns l) as [r ->].
    { apply sorted_length in Hsorted. destruct l; [|done].
      by destruct sdks. }
    simpl. by intros ->%getitem_raises.
Qed.

Lemma latest_sdks_raises sdks_used e :
  latest_sdks sdks_used = inl e → raised_by_row e = true.
Proof.
  assert (Hname : ∀ r e', by_sdk_name r = inl e' → raised_by_row e' = true).
  { intros r e'. by intros ->%getitem_raises. }
  unfold latest_sdks.
  destruct (sorted str_ltb by_sdk_name sdks_used) as [e'|l] eqn:Hsorted; simpl.
  - intros [= <-].
    apply (sorted_raises_only (λ e, raised_by_row e = true) _ _ _ _
             Hname Hsorted).
  - apply (groupby_raises_only (λ e, raised_by_row e = true)); [done|].
    intros n g e' Hg. destruct (latest_version g) as [e0|v] eqn:Hv; [|done].
    simpl. intros [= <-]. by apply (latest_version_raises g).
Qed.

(** X1. The only exceptions the reduction raises are [KeyError] for one of
    the three columns it reads and [ValueError] from [int]; the [pop] of
    line 50 never meets an empty list, so [IndexError] is not among them. *)
Theorem reduction_raises_only_row_errors (data : list Row) (e : exn) :
  sdks_by_project data = inl e →
  raised_by_row e = true ∧ e ≠ IndexError.
Proof.
  intros He.
  assert (raised_by_row e = true) as Hrow; [|split; [done|by intros ->]].
  unfold sdks_by_project in He.
  destruct (sdks_by_project_pairs data) as [e'|pairs] eqn:Hpairs; [|done].
  injection He as ->. revert Hpairs.
  apply (groupby_raises_only (λ e, raised_by_row e = true)).
  - intros r e'. by intros ->%getitem_raises.
  - intros p g e' _. destruct (latest_sdks g) as [e0|l] eqn:Hl; [|done].
    simpl. intros [= <-]. by apply (latest_sdks_raises g).
Qed.

Lemma reduction_raises_only_row_errors_witness :
  raised_by_row (KeyError "sdk.name") = true ∧ KeyError "sdk.name" ≠ IndexError.
Proof.
  apply (reduction_raises_only_row_errors
           [row 1 "a" "1.0" 1;
            {| project_id := Some 1; sdk_name := None;
               sdk_version := Some "x"; last_seen := None |}]).
  reflexivity.
Defined.

(** X2. The reduction returns a mapping exactly when every row has the
    three columns it reads and a version made of integer literals. *)
Theorem reduction_returns_iff_well_formed (data : list Row) :
  returns (sdks_by_project data) ↔ Forall (λ r, well_formed r = true) data.
Proof.
  split; [apply sdks_by_project_returns_inv|apply sdks_by_project_returns].
Qed.

Lemma reduction_returns_iff_well_formed_witness :
  returns (sdks_by_project [row 1 "a" "1.0" 1; row 2 "b" " 2 .+3" 2]) ∧
  Forall (λ r, well_formed r = true) [row 1 "a" "1.0" 1].
Proof.
  split.
  - apply (proj2 (reduction_returns_iff_well_formed _)). repeat constructor.
  - apply (proj1 (reduction_returns_iff_well_formed _)). by eexists.
Defined.

(** ** What the mapping holds, on any input *)

Lemma Forall2_elem_of_r {A B} (P : A → B → Prop) l k y :
  Forall2 P l k → y ∈ k → ∃ x, x ∈ l ∧ P x y.
Proof.
  induction 1 as [|x y' l k Hxy _ IH]; [by intros ?%elem_of_nil|].
  intros [->|Hy]%elem_of_cons.
  - exists x. split; [by left|done].
  - destruct (IH Hy) as (x' & Hx' & HP). exists x'. split; [by right|done].
Qed.

(** The keys of the runs of a sorted list increase strictly. *)
Lemma runs_sorted_strict {A K} `{EqDecision K} (kf : A → K)
    (ltb : K → K → bool) `{!StrictTotal ltb} l :
  StronglySorted (λ x y, ltb (kf y) (kf x) = false) l →
  StronglySorted (λ a b, ltb a b = true) (runs kf l).*1.
Proof.
  induction 1 as [|x l Hl IH Hx]; [constructor|].
  destruct l as [|h l]; [simpl; repeat constructor|].
  change (runs kf (x :: h :: l))
    with (match runs kf (h :: l) with
          | (k, g) :: rs =>
              if decide (kf x = k) then (k, x :: g) :: rs
              else (kf x, [x]) :: (k, g) :: rs
          | [] => [(kf x, [x])]
          end).
  destruct (runs_cons_head kf h l) as (g & rs & Hr). rewrite Hr in *.
  destruct (decide (kf x = kf h)) as [Hxh|Hxh]; [exact IH|].
  rewrite fmap_cons. constructor; [exact IH|].
  rewrite fmap_cons in IH |- *. cbn [fst] in *.
  apply StronglySorted_cons in IH as [Hrs _].
  apply Forall_cons in Hx as [Hxh' _].
  assert (ltb (kf x) (kf h) = true) as Hlt.
  { destruct (ltb (kf x) (kf h)) eqn:Hlt; [done|].
    by destruct (Hxh (ltb_connex _ _ Hlt Hxh')). }
  constructor; [done|].
  eapply Forall_impl; [exact Hrs|]. intros k' Hk'.
  exact (ltb_trans _ _ _ Hlt Hk').
Qed.

(** When the list of a project is built, it has one entry per run of the
    rows sorted by name. *)
Lemma latest_sdks_inv sdks_used sdks :
  latest_sdks sdks_used = inr sdks →
  Forall (λ r, by_sdk_name r = inr (sname r)) sdks_used ∧
  Forall2 (λ kg sdk, name sdk = kg.1 ∧ latest_version kg.2 = inr (version sdk))
    (runs sname (sort_by str_ltb sname sdks_used)) sdks.
Proof.
  intros (l & Hsorted & Hgroups)%bind_inr.
  assert (Hkeys : Forall (λ r, by_sdk_name r = inr (sname r)) sdks_used).
  { eapply Forall_impl; [apply (sorted_returns str_ltb); by exists l|].
    intros r. apply returns_value. }
  split; [done|].
  rewrite (sorted_sort_by str_ltb sname) in Hsorted by done.
  injection Hsorted as <-.
  rewrite (groupby_runs _ _ sname) in Hgroups.
  2:{ apply Forall_forall. intros r Hr%elem_of_sort_by.
      rewrite Forall_forall in Hkeys. by apply Hkeys. }
  apply traverse_inr in Hgroups.
  eapply Forall2_impl; [exact Hgroups|].
  intros [n g] sdk (v & Hv & [= <-])%bind_inr. done.
Qed.

Lemma reduction_lookup_inv data m p sdks :
  sdks_by_project data = inr m → m !! p = Some sdks →
  ∃ g, (p, g) ∈ runs pid data ∧ latest_sdks g = inr sdks.
Proof.
  intros (pairs & Hpairs & [= <-])%bind_inr Hlookup%dict_lookup_Some.
  apply sdks_by_project_pairs_runs in Hpairs as [_ Hpairs].
  destruct (Forall2_elem_of_r _ _ _ _ Hpairs Hlookup) as ([p' g] & Hin & Hp & Hg).
  cbn [fst snd] in *. subst p'. by exists g.
Qed.

Lemma runs_group_rows data p g r :
  Forall (λ r, project_id r = Some (pid r)) data →
  (p, g) ∈ runs pid data → r ∈ g → r ∈ data ∧ project_id r = Some p.
Proof.
  intros Hids Hin Hr.
  assert (r ∈ data) as Hrd by by apply (runs_elem_of pid p g).
  split; [done|].
  pose proof (runs_homogeneous pid data) as Hh. rewrite Forall_forall in Hh.
  destruct (Hh _ Hin) as [_ Hall]. rewrite Forall_forall in Hall, Hids.
  rewrite (Hids r Hrd). f_equal. by apply Hall.
Qed.

(** X3. In every mapping the reduction returns, the list of a project is
    not empty and its entries are in strictly ascending order of SDK name:
    no name occurs twice. *)
Theorem sdk_lists_sorted_by_name (data : list Row) m p sdks :
  sdks_by_project data = inr m → m !! p = Some sdks →
  sdks ≠ [] ∧ StronglySorted (λ a b, str_ltb a b = true) (name <$> sdks).
Proof.
  intros Hm Hp.
  destruct (reduction_lookup_inv data m p sdks Hm Hp) as (g & Hin & Hg).
  apply latest_sdks_inv in Hg as [_ Hg].
  pose proof (runs_homogeneous pid data) as Hh. rewrite Forall_forall in Hh.
  destruct (Hh _ Hin) as [Hne _]. cbn [snd] in Hne.
  assert (name <$> sdks = (runs sname (sort_by str_ltb sname g)).*1) as Hnames.
  { clear -Hg. induction Hg as [|kg sdk rs sdks [Hn _] _ IH]; [done|].
    by rewrite !fmap_cons, Hn, IH. }
  split.
  - intros ->. apply Forall2_nil_inv_r in Hg.
    destruct g as [|r g]; [done|].
    assert (r ∈ sort_by str_ltb sname (r :: g)) as Hr.
    { apply elem_of_sort_by. by left. }
    rewrite <- (runs_concat sname (sort_by str_ltb sname (r :: g))), Hg in Hr.
    by apply elem_of_nil in Hr.
  - rewrite Hnames. apply (runs_sorted_strict sname str_ltb), sort_by_sorted, _.
Qed.

Lemma sdk_lists_sorted_by_name_witness :
  [{| name := "a"; version := "2.0" |}; {| name := "b"; version := "0.1" |}] ≠ [] ∧
  StronglySorted (λ a b, str_ltb a b = true)
    (name <$> [{| name := "a"; version := "2.0" |};
               {| name := "b"; version := "0.1" |}]).
Proof.
  apply (sdk_lists_sorted_by_name
           [row 1 "b" "0.1" 3; row 1 "a" "2.0" 1; row 2 "c" "1" 2]
           (dict [(1, [{| name := "a"; version := "2.0" |};
                       {| name := "b"; version := "0.1" |}]);
                  (2, [{| name := "c"; version := "1" |}])]) 1);
    reflexivity.
Defined.

(** X4. The keys of the mapping the reduction returns are the project ids
    that occur in the rows, no more and no fewer. *)
Theorem reduction_keys_are_row_projects (data : list Row) m p :
  sdks_by_project data = inr m →
  (is_Some (m !! p) ↔ ∃ r, r ∈ data ∧ project_id r = Some p).
Proof.
  intros Hm. split.
  - intros [sdks Hp].
    destruct (reduction_lookup_inv data m p sdks Hm Hp) as (g & Hin & _).
    apply bind_inr in Hm as (pairs & Hpairs & _).
    apply sdks_by_project_pairs_runs in Hpairs as [Hids _].
    pose proof (runs_homogeneous pid data) as Hh. rewrite Forall_forall in Hh.
    destruct (Hh _ Hin) as [Hne _]. cbn [snd] in Hne.
    destruct g as [|r g]; [done|]. exists r.
    apply (runs_group_rows data p (r :: g)); [done..|by left].
  - intros (r & Hr & Hp).
    destruct (m !! p) as [sdks|] eqn:Hlookup; [by eexists|].
    assert (m !! p ≠ None); [|done].
    intros Hnone. clear Hlookup.
    apply bind_inr in Hm as (pairs & Hpairs & [= <-]).
    apply sdks_by_project_pairs_runs in Hpairs as [Hids Hpairs].
    assert (p ∈ pairs.*1) as Hkey.
    { rewrite (Forall2_keys (λ g l, latest_sdks g = inr l) _ _ Hpairs).
      apply elem_of_runs_key. exists r. split; [done|].
      rewrite Forall_forall in Hids. rewrite (Hids r Hr) in Hp. by injection Hp. }
    destruct (dict_lookup_present pairs p Hkey) as [sdks Hsome]. congruence.
Qed.

Lemma reduction_keys_are_row_projects_witness :
  is_Some (dict [(1, [{| name := "a"; version := "2.0" |}]);
                 (2, [{| name := "c"; version := "1" |}])] !! 2) ↔
  ∃ r, r ∈ [row 1 "a" "2.0" 1; row 2 "c" "1" 2] ∧ project_id r = Some 2.
Proof.
  apply (reduction_keys_are_row_projects [row 1 "a" "2.0" 1; row 2 "c" "1" 2]).
  reflexivity.
Defined.

Lemma latest_version_inv sdks v :
  latest_version sdks = inr v → ∃ r, r ∈ sdks ∧ sdk_version r = Some v.
Proof.
  intros (l & Hsorted & (r & Hpop & Hget)%bind_inr)%bind_inr.
  assert (Hkeys : Forall (λ r, version_key r = inr (vkey r)) sdks).
  { eapply Forall_impl; [apply (sorted_returns list_ltb); by exists l|].
    intros x. apply returns_value. }
  rewrite (sorted_sort_by list_ltb vkey) in Hsorted by done.
  injection Hsorted as <-. exists r. split.
  - unfold pop in Hpop.
    destruct (last (sort_by list_ltb vkey sdks)) as [x|] eqn:Hlast; [|done].
    injection Hpop as ->. apply last_Some_elem_of in Hlast.
    by apply elem_of_sort_by in Hlast.
  - unfold getitem in Hget. destruct (sdk_version r); [|done]. by injection Hget as ->.
Qed.

(** X5. The mapping reports nothing that was not observed: every entry in
    the list of a project is the SDK name and the version string of one of
    the rows of that project. *)
Theorem entries_come_from_rows (data : list Row) m p sdks sdk :
  sdks_by_project data = inr m → m !! p = Some sdks → sdk ∈ sdks →
  ∃ r, r ∈ data ∧ project_id r = Some p ∧
       sdk_name r = Some (name sdk) ∧ sdk_version r = Some (version sdk).
Proof.
  intros Hm Hp Hsdk.
  destruct (reduction_lookup_inv data m p sdks Hm Hp) as (g & Hin & Hg).
  apply bind_inr in Hm as (pairs & Hpairs & _).
  apply sdks_by_project_pairs_runs in Hpairs as [Hids _].
  apply latest_sdks_inv in Hg as [Hnames Hg].
  destruct (Forall2_elem_of_r _ _ _ _ Hg Hsdk) as ([n grp] & Hgrp & Hn & Hv).
  cbn [fst snd] in *.
  apply latest_version_inv in Hv as (r & Hr & Hversion).
  assert (r ∈ g) as Hrg.
  { apply (elem_of_sort_by str_ltb sname). by apply (runs_elem_of sname n grp). }
  destruct (runs_group_rows data p g r Hids Hin Hrg) as [Hrd Hproject].
  exists r. repeat split; [done..| |done].
  pose proof (runs_homogeneous sname (sort_by str_ltb sname g)) as Hh.
  rewrite Forall_forall in Hh. destruct (Hh _ Hgrp) as [_ Hall].
  rewrite Forall_forall in Hall. specialize (Hall r Hr). cbn [fst] in Hall.
  rewrite Forall_forall in Hnames. specialize (Hnames r Hrg).
  unfold by_sdk_name in Hnames. destruct (sdk_name r); [|done].
  injection Hnames as ->. by rewrite Hn, Hall.
Qed.

Lemma entries_come_from_rows_witness :
  ∃ r, r ∈ [row 1 "b" "0.1" 3; row 1 "a" "2.0" 1; row 1 "a" "1.0" 2] ∧
       project_id r = Some 1 ∧ sdk_name r = Some "a" ∧ sdk_version r = Some "2.0".
Proof.
  apply (entries_come_from_rows
           [row 1 "b" "0.1" 3; row 1 "a" "2.0" 1; row 1 "a" "1.0" 2]
           (dict [(1, [{| name := "a"; version := "2.0" |};
                       {| name := "b"; version := "0.1" |}])]) 1
           [{| name := "a"; version := "2.0" |};
            {| name := "b"; version := "0.1" |}]
           {| name := "a"; version := "2.0" |});
    [reflexivity|reflexivity|by left].
Defined.

(** ** Rows that arrive in two batches *)

Lemma dict_app {K V} `{Countable K} (l1 l2 : list (K * V)) :
  dict (l1 ++ l2) = dict l2 ∪ dict l1.
Proof.
  induction l2 as [|[k v] l2 IH] using rev_ind.
  - rewrite app_nil_r. unfold dict at 2. simpl. by rewrite (left_id_L ∅ (∪)).
  - rewrite app_assoc, !dict_snoc, IH. by rewrite insert_union_l.
Qed.

Lemma sdks_by_project_pairs_traverse data pairs :
  sdks_by_project_pairs data = inr pairs →
  Forall (λ r, by_project_id r = inr (pid r)) data ∧
  traverse (λ kg : Z * list Row, l ← latest_sdks kg.2; mret (kg.1, l))
    (runs pid data) = inr pairs.
Proof.
  intros Hp. unfold sdks_by_project_pairs in Hp.
  assert (Hkeys : Forall (λ r, by_project_id r = inr (pid r)) data).
  { eapply Forall_impl; [eapply groupby_returns; by eexists|].
    intros r Hr. by apply returns_value. }
  split; [done|]. by rewrite (groupby_runs _ _ pid) in Hp.
Qed.

(** X6. Rows that come in two batches, the second starting with another
    project than the first ends with: when the reduction returns on each
    batch, on their concatenation it returns the union of the two mappings,
    in which a project of both batches has the list of the second. *)
Theorem reduction_of_batches (d1 d2 : list Row) m1 m2 :
  (∀ x y, last d1 = Some x → head d2 = Some y → project_id x ≠ project_id y) →
  sdks_by_project d1 = inr m1 → sdks_by_project d2 = inr m2 →
  sdks_by_project (d1 ++ d2) = inr (m2 ∪ m1).
Proof.
  intros Hboundary (ps1 & Hps1 & [= <-])%bind_inr (ps2 & Hps2 & [= <-])%bind_inr.
  apply sdks_by_project_pairs_traverse in Hps1 as [Hk1 Hps1].
  apply sdks_by_project_pairs_traverse in Hps2 as [Hk2 Hps2].
  unfold sdks_by_project, sdks_by_project_pairs.
  rewrite (groupby_runs _ _ pid) by by apply Forall_app.
  rewrite runs_app, traverse_app, Hps1, Hps2; [simpl; by rewrite dict_app|].
  intros x y Hx Hy Heq. apply (Hboundary x y Hx Hy).
  rewrite Forall_forall in Hk1, Hk2.
  pose proof (Hk1 x (last_Some_elem_of _ _ Hx)) as Hx'.
  pose proof (Hk2 y (head_Some_elem_of _ _ Hy)) as Hy'.
  unfold by_project_id in Hx', Hy'.
  destruct (project_id x), (project_id y); try done.
  injection Hx' as ->. injection Hy' as ->. by rewrite Heq.
Qed.

Lemma reduction_of_batches_witness :
  sdks_by_project ([row 1 "a" "2.0" 1; row 2 "a" "1.0" 2] ++ [row 1 "a" "1.0" 3])
  = inr (dict [(1, [{| name := "a"; version := "1.0" |}])]
         ∪ dict [(1, [{| name := "a"; version := "2.0" |}]);
                 (2, [{| name := "a"; version := "1.0" |}])]).
Proof.
  apply reduction_of_batches; [|reflexivity..].
  intros x y [= <-] [= <-]. discriminate.
Defined.

(** ** One more row, and rows in another order *)

(** X7. One more row at the end of a group is selected exactly when its key
    is not smaller than the key of the version selected so far; otherwise
    the selection stays. A further observation never lowers the reported
    version. *)
Theorem latest_version_one_more_row (sdks : list Row) (r : Row) :
  sdks ≠ [] → Forall (λ x, well_formed x = true) (sdks ++ [r]) →
  ∃ x v k vr kr,
    x ∈ sdks ∧ sdk_version x = Some v ∧ version_key x = inr k ∧
    sdk_version r = Some vr ∧ version_key r = inr kr ∧
    latest_version sdks = inr v ∧
    latest_version (sdks ++ [r]) = inr (if list_ltb kr k then v else vr).
Proof.
  intros Hne [Hwf [Hr _]%Forall_cons]%Forall_app.
  destruct (last_max_exists list_ltb vkey sdks Hne)
    as (l1 & x & l2 & -> & H1 & H2).
  assert (well_formed x = true) as Hx.
  { rewrite Forall_app, Forall_cons in Hwf. by destruct Hwf as (_ & ? & _). }
  pose proof (well_formed_fields x Hx) as (_ & _ & Hvx & Hkx).
  pose proof (well_formed_fields r Hr) as (_ & _ & Hvr & Hkr).
  exists x, (vstring x), (vkey x), (vstring r), (vkey r).
  split; [apply elem_of_app; right; by left|].
  do 4 (split; [done|]).
  split; [by apply latest_version_last_max|].
  destruct (list_ltb (vkey r) (vkey x)) eqn:Hrx.
  - rewrite <- app_assoc. cbn [app].
    apply latest_version_last_max; [|done|].
    + rewrite Forall_app, Forall_cons, Forall_app, Forall_singleton.
      rewrite Forall_app, Forall_cons in Hwf.
      destruct Hwf as (? & ? & ?). by repeat split.
    + apply Forall_app. split; [done|by apply Forall_singleton].
  - apply (latest_version_last_max (l1 ++ x :: l2) r []); [|  |constructor].
    + apply Forall_app. split; [done|by apply Forall_singleton].
    + apply Forall_app. split; [|apply Forall_cons; split; [done|]].
      * eapply Forall_impl; [exact H1|]. intros y Hy.
        exact (ltb_le_trans list_ltb _ _ _ Hy Hrx).
      * eapply Forall_impl; [exact H2|]. intros y Hy.
        destruct (list_ltb (vkey r) (vkey y)) eqn:Hry; [|done].
        pose proof (ltb_trans _ _ _ Hry Hy). congruence.
Qed.

Lemma latest_version_one_more_row_witness :
  ∃ x v k vr kr,
    x ∈ [row 1 "a" "1.0" 1; row 1 "a" "2" 2] ∧
    sdk_version x = Some v ∧ version_key x = inr k ∧
    sdk_version (row 1 "a" "02" 3) = Some vr ∧
    version_key (row 1 "a" "02" 3) = inr kr ∧
    latest_version [row 1 "a" "1.0" 1; row 1 "a" "2" 2] = inr v ∧
    latest_version ([row 1 "a" "1.0" 1; row 1 "a" "2" 2] ++ [row 1 "a" "02" 3])
    = inr (if list_ltb kr k then v else vr).
Proof.
  apply latest_version_one_more_row; [discriminate|repeat constructor].
Defined.

(** X8. When no two rows of a group have the same key, the order of the
    rows does not matter: every permutation of the group gives the same
    version. *)
Theorem latest_version_order_free (sdks sdks' : list Row) :
  Forall (λ x, well_formed x = true) sdks →
  NoDup (vkey <$> sdks) → sdks ≡ₚ sdks' →
  latest_version sdks' = latest_version sdks.
Proof.
  intros Hwf Hnd Hperm.
  destruct (decide (sdks = [])) as [->|Hne].
  { apply Permutation_nil_l in Hperm. by subst. }
  destruct (last_max_exists list_ltb vkey sdks Hne)
    as (l1 & x & l2 & Hsplit & H1 & H2).
  assert (Hmax : ∀ y, y ∈ sdks → list_ltb (vkey x) (vkey y) = false).
  { intros y. rewrite Hsplit. intros [Hy|[->|Hy]%elem_of_cons]%elem_of_app.
    - rewrite Forall_forall in H1. by apply H1.
    - apply list_ltb_irrefl.
    - rewrite Forall_forall in H2. exact (ltb_asym list_ltb _ _ (H2 _ Hy)). }
  assert (latest_version sdks = inr (vstring x)) as ->.
  { rewrite Hsplit in Hwf |- *. by apply latest_version_last_max. }
  assert (x ∈ sdks') as (a & b & ->)%list_elem_of_split.
  { rewrite <- Hperm, Hsplit. apply elem_of_app. right. by left. }
  assert (Hnd' : NoDup (vkey <$> (a ++ x :: b))) by by rewrite <- Hperm.
  rewrite fmap_app, fmap_cons in Hnd'.
  apply NoDup_app in Hnd' as (_ & Ha & [Hb _]%NoDup_cons).
  apply latest_version_last_max.
  - by rewrite <- Hperm.
  - apply Forall_forall. intros y Hy. apply Hmax. rewrite Hperm.
    apply elem_of_app. by left.
  - apply Forall_forall. intros y Hy.
    destruct (list_ltb (vkey y) (vkey x)) eqn:Hyx; [done|]. exfalso.
    apply Hb. apply list_elem_of_fmap. exists y. split; [|done].
    apply list_ltb_connex; [|done]. apply Hmax. rewrite Hperm.
    apply elem_of_app. right. by right.
Qed.

Lemma latest_version_order_free_witness :
  latest_version [row 1 "a" "2.0" 2; row 1 "a" "0.9" 3; row 1 "a" "1.0" 1]
  = latest_version [row 1 "a" "1.0" 1; row 1 "a" "2.0" 2; row 1 "a" "0.9" 3].
Proof.
  apply latest_version_order_free.
  - repeat constructor.
  - apply (bool_decide_unpack _). vm_compute. exact I.
  - apply Permutation_cons_app with (l1 := [row 1 "a" "2.0" 2; row 1 "a" "0.9" 3])
                                    (l2 := []). reflexivity.
Defined.

(** ** The response of the endpoint *)

Section ResponseFacts.
Context {SdkIndexState Suggestions : Type}.
Variable get_suggested_updates : SdkSetupState → SdkIndexState → result Suggestions.
Variable index_state : SdkIndexState.

Abbreviation suggest_for := (suggest get_suggested_updates index_state).
Abbreviation endpoint := (get get_suggested_updates index_state).

Lemma project_pairs_keys (sdks : gmap Z (list Sdk)) projects prs :
  traverse
    (λ project : Project,
       l ← traverse suggest_for (default [] (sdks !! id project));
       mret (id project, l))
    projects = inr prs →
  prs.*1 = id <$> projects.
Proof.
  intros Hprs%traverse_inr.
  induction Hprs as [|project [k v] projects prs Hhead _ IH]; [done|].
  apply bind_inr in Hhead as (l & _ & [= <- <-]).
  by rewrite !fmap_cons, IH.
Qed.

Lemma get_lookup projects data m sdks :
  sdks_by_project data = inr sdks → endpoint projects data = inr m →
  ∀ k, (k ∈ id <$> projects →
        ∃ l, m !! k = Some l ∧
             traverse suggest_for (default [] (sdks !! k)) = inr l) ∧
       (k ∉ id <$> projects → m !! k = None).
Proof.
  intros Hsdks Hm k. unfold get in Hm. rewrite Hsdks in Hm. simpl in Hm.
  apply bind_inr in Hm as (prs & Hprs & [= <-]).
  pose proof (project_pairs_keys sdks projects prs Hprs) as Hkeys.
  destruct (project_pairs get_suggested_updates index_state sdks projects prs Hprs)
    as [_ Hvals].
  split.
  - intros Hk. rewrite <- Hkeys in Hk.
    destruct (dict_lookup_present prs k Hk) as [l Hl].
    exists l. split; [done|]. by apply Hvals, dict_lookup_Some.
  - intros Hk. apply dict_lookup_absent. by rewrite Hkeys.
Qed.

(** X9. The response has the requested projects as its only keys, also
    when rows of other projects came back, and holds for each of them the
    result of one suggestion lookup per entry of its SDK list, in the order
    of the list. *)
Theorem response_lists_one_lookup_per_sdk projects data m :
  get get_suggested_updates index_state projects data = inr m →
  ∃ sdks, sdks_by_project data = inr sdks ∧
    (∀ project, project ∈ projects →
       ∃ l, m !! id project = Some l ∧
            Forall2 (λ sdk s, suggest_for sdk = inr s)
              (default [] (sdks !! id project)) l) ∧
    (∀ k, k ∉ id <$> projects → m !! k = None).
Proof.
  intros Hm. pose proof Hm as (sdks & Hsdks & _)%bind_inr.
  exists sdks. split; [done|]. split.
  - intros project Hin.
    destruct (get_lookup projects data m sdks Hsdks Hm (id project)) as [Hsome _].
    destruct Hsome as (l & Hl & Hsug); [by apply list_elem_of_fmap_2|].
    exists l. split; [done|]. by apply traverse_inr.
  - intros k. apply (get_lookup projects data m sdks Hsdks Hm k).
Qed.

(** X10. The endpoint returns a response exactly when the reduction returns
    and the suggestion lookup returns on every entry of the SDK lists of the
    requested projects: an exception of either is not caught, and the
    lookup is not made for projects that were not requested. *)
Theorem endpoint_returns_iff projects data :
  returns (get get_suggested_updates index_state projects data) ↔
  ∃ sdks, sdks_by_project data = inr sdks ∧
    ∀ project sdk, project ∈ projects →
      sdk ∈ default [] (sdks !! id project) → returns (suggest_for sdk).
Proof.
  split.
  - intros [m (sdks & Hsdks & (prs & Hprs & _)%bind_inr)%bind_inr].
    exists sdks. split; [done|]. intros project sdk Hproject Hsdk.
    assert (returns (traverse
              (λ project : Project,
                 l ← traverse suggest_for (default [] (sdks !! id project));
                 mret (id project, l)) projects)) as Hall by by exists prs.
    apply traverse_returns_all in Hall. rewrite Forall_forall in Hall.
    destruct (Hall project Hproject) as [kv (l & Hl & _)%bind_inr].
    assert (returns (traverse suggest_for (default [] (sdks !! id project))))
      as Hret by by exists l.
    apply traverse_returns_all in Hret. rewrite Forall_forall in Hret.
    by apply Hret.
  - intros (sdks & Hsdks & Hall). unfold get. rewrite Hsdks. simpl.
    destruct (traverse_returns
                (λ project : Project,
                   l ← traverse suggest_for (default [] (sdks !! id project));
                   mret (id project, l)) projects) as [prs ->]; [|by eexists].
    apply Forall_forall. intros project Hproject.
    destruct (traverse_returns suggest_for (default [] (sdks !! id project)))
      as [l Hl].
    { apply Forall_forall. intros sdk Hsdk. by apply (Hall project). }
    exists (id project, l). cbv beta. by rewrite Hl.
Qed.

(** X11. The response depends on the set of requested project ids only:
    asking for the same projects in another order, or for one of them
    twice, gives the same response. *)
Theorem response_depends_on_id_set projects projects' data m :
  (∀ k, k ∈ id <$> projects ↔ k ∈ id <$> projects') →
  get get_suggested_updates index_state projects data = inr m →
  get get_suggested_updates index_state projects' data = inr m.
Proof.
  intros Hids Hm.
  pose proof Hm as (sdks & Hsdks & _)%bind_inr.
  assert (returns (endpoint projects data)) as Hret by by exists m.
  apply endpoint_returns_iff in Hret as (sdks0 & Hsdks0 & Hall).
  assert (sdks0 = sdks) as -> by congruence.
  assert (returns (endpoint projects' data)) as [m' Hm'].
  { apply endpoint_returns_iff. exists sdks. split; [done|].
    intros project' sdk Hproject' Hsdk.
    assert (id project' ∈ id <$> projects) as (project & Heq & Hin)%list_elem_of_fmap.
    { apply Hids. by apply list_elem_of_fmap_2. }
    apply (Hall project sdk Hin). by rewrite <- Heq. }
  rewrite Hm'. f_equal. apply map_eq. intros k.
  destruct (get_lookup projects data m sdks Hsdks Hm k) as [Hin Hout].
  destruct (get_lookup projects' data m' sdks Hsdks Hm' k) as [Hin' Hout'].
  destruct (decide (k ∈ id <$> projects)) as [Hk|Hk].
  - destruct (Hin Hk) as (l & -> & Hl).
    destruct (Hin' (proj1 (Hids k) Hk)) as (l' & -> & Hl'). congruence.
  - rewrite (Hout Hk). apply Hout'. intros Hk'. by apply Hk, Hids.
Qed.

(** X12. When the query returns no rows, the endpoint maps every requested
    project to the empty list without making any suggestion lookup: it
    returns whatever the lookup would do. *)
Theorem empty_result_maps_all_to_empty projects :
  ∃ m, get get_suggested_updates index_state projects [] = inr m ∧
    ∀ k, m !! k = if decide (k ∈ id <$> projects) then Some [] else None.
Proof.
  assert (returns (endpoint projects [])) as [m Hm].
  { apply endpoint_returns_iff. exists ∅. split; [done|].
    intros project sdk _ Hsdk. rewrite lookup_empty in Hsdk.
    by apply elem_of_nil in Hsdk. }
  exists m. split; [done|]. intros k.
  destruct (get_lookup projects [] m ∅ eq_refl Hm k) as [Hin Hout].
  destruct (decide (k ∈ id <$> projects)) as [Hk|Hk]; [|by apply Hout].
  destruct (Hin Hk) as (l & -> & Hl).
  change (@inr exn (list Suggestions) [] = inr l) in Hl. by injection Hl as <-.
Qed.
End ResponseFacts.

Lemma response_lists_one_lookup_per_sdk_witness :
  ∃ sdks,
    sdks_by_project [row 2 "a" "1.0" 2; row 1 "a" "2.0" 1; row 1 "b" "0.1" 3]
    = inr sdks ∧
    (∀ project, project ∈ [ {| id := 1 |}; {| id := 7 |} ] →
       ∃ l, dict [(1, ["a"; "b"]); (7, [])] !! id project = Some l ∧
            Forall2 (λ sdk s, suggest (λ s (_ : unit), inr (setup_sdk_name s)) tt sdk
                              = inr s)
              (default [] (sdks !! id project)) l) ∧
    (∀ k, k ∉ id <$> [ {| id := 1 |}; {| id := 7 |} ] →
          dict [(1, ["a"; "b"]); (7, [])] !! k = None).
Proof.
  apply (response_lists_one_lookup_per_sdk
           (λ s (_ : unit), inr (setup_sdk_name s)) tt
           [ {| id := 1 |}; {| id := 7 |} ]
           [row 2 "a" "1.0" 2; row 1 "a" "2.0" 1; row 1 "b" "0.1" 3]).
  reflexivity.
Defined.

Lemma response_depends_on_id_set_witness :
  get (λ s (_ : unit), inr (setup_sdk_name s)) tt
    [ {| id := 7 |}; {| id := 1 |}; {| id := 7 |} ]
    [row 2 "a" "1.0" 2; row 1 "a" "2.0" 1; row 1 "b" "0.1" 3]
  = inr (dict [(1, ["a"; "b"]); (7, [])]).
Proof.
  apply (response_depends_on_id_set
           (λ s (_ : unit), inr (setup_sdk_name s)) tt
           [ {| id := 1 |}; {| id := 7 |} ]).
  - intros k. vm_compute fmap. rewrite !elem_of_cons, !elem_of_nil. tauto.
  - reflexivity.
Defined.

Lemma endpoint_returns_iff_witness :
  returns (get (λ s (_ : unit), inr (setup_sdk_name s)) tt
             [ {| id := 1 |}; {| id := 7 |} ]
             [row 2 "a" "1.0" 2; row 1 "a" "2.0" 1]).
Proof.
  apply (proj2 (endpoint_returns_iff _ _ _ _)).
  eexists. split; [reflexivity|]. intros project sdk _ _. by eexists.
Defined.

(** ** The pieces of a version *)

Lemma split_dot_nonempty s : split_dot s ≠ [].
Proof.
  destruct s as [|c s]; simpl; [done|].
  destruct (Ascii.eqb c "."); [done|]. by destruct (split_dot s).
Qed.

(** X13. Splitting at the dots loses nothing: the pieces hold no dot, there
    is one more piece than there are dots, and joining the pieces with dots
    gives the version back. *)
Theorem split_dot_join (s : string) :
  join_dot (split_dot s) = s ∧
  Forall (λ piece, count_dots piece = 0%nat) (split_dot s) ∧
  length (split_dot s) = S (count_dots s).
Proof.
  induction s as [|c s (IHjoin & IHdots & IHlen)]; [by repeat constructor|].
  cbn [split_dot count_dots]. destruct (Ascii.eqb c ".") eqn:Hc.
  - apply Ascii.eqb_eq in Hc as ->. split; [|split].
    + cbn [join_dot]. pose proof (split_dot_nonempty s).
      destruct (split_dot s) as [|piece pieces] eqn:Hs; [done|].
      by rewrite IHjoin.
    + by constructor.
    + cbn [length]. by rewrite IHlen.
  - destruct (split_dot s) as [|piece pieces] eqn:Hs.
    { by destruct (split_dot_nonempty s). }
    apply Forall_cons in IHdots as [Hpiece Hpieces]. split; [|split].
    + cbn [join_dot] in *. destruct pieces as [|piece' pieces].
      * by rewrite IHjoin.
      * by rewrite <- IHjoin.
    + constructor; [|done]. cbn [count_dots]. by rewrite Hc.
    + done.
Qed.

(** X14. The key of a version has one component more than the version has
    dots, so "1.2" and "1.2.0" never have the same key. *)
Theorem version_key_length (version : string) ks :
  parse_version version = inr ks → length ks = S (count_dots version).
Proof.
  intros Hks%traverse_inr%Forall2_length.
  rewrite <- Hks. apply split_dot_join.
Qed.

Lemma version_key_length_witness : length [1; 2; 0] = S (count_dots "1.2.0").
Proof. apply (version_key_length "1.2.0"). reflexivity. Defined.

(** X15. Leading zeros and a plus sign do not change the number read from a
    segment of digits: versions that differ in them have the same key. *)
Theorem int_ignores_zero_and_plus (u : string) :
  numeric u = true →
  int (String "0" u) = int u ∧ int (String "+" u) = int u.
Proof.
  intros Hu. pose proof (int_numeric u Hu) as [Hint _].
  unfold numeric in Hu.
  destruct (list_ascii_of_string u) as [|c cs] eqn:Hcs; [done|].
  apply forallb_Forall in Hu. rewrite Hint. clear Hint.
  pose proof (Forall_cons_1 _ _ _ Hu) as [Hc Hrest].
  assert (Hplus : Ascii.eqb c "+" = false ∧ Ascii.eqb c "-" = false).
  { split; apply Ascii.eqb_neq; intros ->; done. }
  destruct Hplus as [Hp Hm].
  unfold int, decimal. cbn [list_ascii_of_string]. rewrite Hcs. split.
  - rewrite (strip_digits ("0"%char :: c :: cs)) by by constructor.
    cbn [int_literal Ascii.eqb Bool.eqb]. cbn [parse_digits].
    change (is_digit "0") with true. cbv iota.
    change (10 * 0 + digit_val "0") with 0.
    rewrite Hc. by rewrite (parse_digits_digits cs _ Hrest).
  - assert (strip ("+"%char :: c :: cs) = "+"%char :: c :: cs) as ->.
    { unfold strip. rewrite (lstrip_head "+") by done.
      rewrite reverse_cons.
      assert (reverse (c :: cs) ++ ["+"%char] = lstrip (reverse (c :: cs) ++ ["+"%char]))
        as <-.
      { assert (Forall (λ c, is_digit c = true) (reverse (c :: cs))) as Hrev
          by by apply Forall_reverse.
        destruct (reverse (c :: cs)) as [|d ds] eqn:Hr.
        - apply (f_equal length) in Hr. by rewrite length_reverse in Hr.
        - apply Forall_cons in Hrev as [Hd _]. cbn [app].
          by rewrite (lstrip_head d) by by apply is_digit_not_space. }
      rewrite reverse_app, reverse_involutive. done. }
    cbn [int_literal]. change (Ascii.eqb "+" "+") with true. cbv iota.
    cbn [parse_digits]. rewrite Hc.
    by rewrite (parse_digits_digits cs _ Hrest).
Qed.

Lemma int_ignores_zero_and_plus_witness :
  int "012" = int "12" ∧ int "+12" = int "12".
Proof. apply (int_ignores_zero_and_plus "12"). reflexivity. Defined.

(** ** The contracts of [sorted] and [groupby] *)

(** X16. When no key raises, [sorted(l, key=key)] returns a permutation of
    [l] in which no element has a smaller key than one before it and the
    elements with the same key are in the order they had in [l]. *)
Theorem sorted_is_stable_sort {A K} `{EqDecision K} (ltb : K → K → bool)
    `{!StrictTotal ltb} (key : A → result K) (kf : A → K) (l : list A) :
  Forall (λ x, key x = inr (kf x)) l →
  ∃ l', sorted ltb key l = inr l' ∧ l' ≡ₚ l ∧
        StronglySorted (λ x y, ltb (kf y) (kf x) = false) l' ∧
        ∀ k, filter (λ x, kf x = k) l' = filter (λ x, kf x = k) l.
Proof.
  intros Hkeys. exists (sort_by ltb kf l). split; [by apply sorted_sort_by|].
  split; [apply sort_by_Permutation|].
  split; [by apply sort_by_sorted|]. intros k. by apply sort_by_stable.
Qed.

Lemma sorted_is_stable_sort_witness :
  ∃ l', sorted list_ltb version_key
          [row 1 "a" "1.0" 1; row 1 "a" "0.9" 2; row 1 "a" "01.0" 3] = inr l' ∧
        l' ≡ₚ [row 1 "a" "1.0" 1; row 1 "a" "0.9" 2; row 1 "a" "01.0" 3] ∧
        StronglySorted (λ x y, list_ltb (vkey y) (vkey x) = false) l' ∧
        ∀ k, filter (λ x, vkey x = k) l'
             = filter (λ x, vkey x = k)
                 [row 1 "a" "1.0" 1; row 1 "a" "0.9" 2; row 1 "a" "01.0" 3].
Proof.
  apply (sorted_is_stable_sort list_ltb version_key vkey). repeat constructor.
Defined.

Lemma runs_adjacent {A K} `{EqDecision K} (kf : A → K) l rs1 k1 g1 k2 g2 rs2 :
  runs kf l = rs1 ++ (k1, g1) :: (k2, g2) :: rs2 → k1 ≠ k2.
Proof.
  revert rs1 k1 g1. induction l as [|x l IH]; intros rs1 k1 g1.
  { by destruct rs1. }
  cbn [runs]. destruct (runs kf l) as [|[k g] rs] eqn:Hr.
  { by destruct rs1 as [|? [|? ?]]. }
  destruct (decide (kf x = k)) as [Hxk|Hxk].
  - destruct rs1 as [|r rs1]; cbn [app]; intros Heq.
    + injection Heq as Hk Hg Hrs. subst k1.
      apply (IH [] k g). by rewrite Hrs.
    + injection Heq as _ Hrs.
      apply (IH ((k, g) :: rs1) k1 g1). by rewrite Hrs.
  - destruct rs1 as [|r rs1]; cbn [app]; intros Heq.
    + injection Heq as Hk1 _ Hk2 _ _. by subst.
    + injection Heq as _ Hrs. by apply (IH rs1 k1 g1).
Qed.

(** X17. When no key raises, [groupby(l, key=key)] yields the maximal runs
    of [l]: the groups, put end to end, are [l]; no group is empty; all the
    elements of a group have the key it is yielded with; and two groups
    that follow each other have different keys. *)
Theorem groupby_yields_maximal_runs {A K} `{EqDecision K}
    (key : A → result K) (kf : A → K) (l : list A) :
  Forall (λ x, key x = inr (kf x)) l →
  ∃ groups,
    groupby key (λ k g, mret (k, g)) l = inr groups ∧
    mjoin groups.*2 = l ∧
    Forall (λ kg, kg.2 ≠ [] ∧ Forall (λ x, kf x = kg.1) kg.2) groups ∧
    ∀ rs1 k1 g1 k2 g2 rs2,
      groups = rs1 ++ (k1, g1) :: (k2, g2) :: rs2 → k1 ≠ k2.
Proof.
  intros Hkeys. exists (runs kf l). split; [|split; [|split]].
  - rewrite (groupby_runs _ _ kf) by done.
    rewrite (traverse_pure _ (λ kg, kg)).
    + by rewrite list_fmap_id.
    + apply Forall_forall. by intros [k g] _.
  - apply runs_concat.
  - apply runs_homogeneous.
  - intros rs1 k1 g1 k2 g2 rs2. apply runs_adjacent.
Qed.

Lemma groupby_yields_maximal_runs_witness :
  ∃ groups,
    groupby by_project_id (λ k g, mret (k, g))
      [row 1 "a" "2.0" 1; row 2 "a" "1.0" 2; row 1 "a" "1.0" 3] = inr groups ∧
    mjoin groups.*2 = [row 1 "a" "2.0" 1; row 2 "a" "1.0" 2; row 1 "a" "1.0" 3] ∧
    Forall (λ kg, kg.2 ≠ [] ∧ Forall (λ x, pid x = kg.1) kg.2) groups ∧
    ∀ rs1 k1 g1 k2 g2 rs2,
      groups = rs1 ++ (k1, g1) :: (k2, g2) :: rs2 → k1 ≠ k2.
Proof.
  apply (groupby_yields_maximal_runs by_project_id pid). repeat constructor.
Defined.

(** ** The order asked of the query *)

(** X18. On rows in descending order of project id, the order the query
    asks for, grouping by runs is grouping by project: whenever the
    reduction returns, a project without rows has no key, and a project
    with rows has the list built from all of its rows. *)
Theorem ordered_rows_group_whole_projects (data : list Row) m p :
  ordered_by_project data → sdks_by_project data = inr m →
  let rows := filter (λ r, project_id r = Some p) data in
  (rows = [] → m !! p = None) ∧
  (rows ≠ [] → ∃ sdks, latest_sdks rows = inr sdks ∧ m !! p = Some sdks).
Proof.
  intros Hord Hm rows.
  assert (Hwf : Forall (λ r, well_formed r = true) data).
  { apply sdks_by_project_returns_inv. by exists m. }
  assert (Hids : Forall (λ r, project_id r = Some (pid r)) data).
  { eapply Forall_impl; [exact Hwf|]. by intros r [? _]%well_formed_fields. }
  pose proof (contiguous_NoDup data Hids (ordered_contiguous data Hids Hord)) as Hnd.
  assert (Hrows : rows = filter (λ r, pid r = p) data).
  { apply filter_ext_Forall. eapply Forall_impl; [exact Hids|].
    intros r ->. split; [by intros [= ->]|by intros ->]. }
  split.
  - intros Hnil. apply (sdks_by_project_absent data m p Hm).
    apply Forall_forall. intros r Hr Hp.
    assert (r ∈ rows) as Hin by by apply list_elem_of_filter.
    rewrite Hnil in Hin. by apply elem_of_nil in Hin.
  - intros Hne.
    assert (∃ r, r ∈ data ∧ project_id r = Some p) as Hex.
    { destruct rows as [|r rows'] eqn:Hr; [done|]. exists r.
      assert (r ∈ filter (λ r, project_id r = Some p) data) as Hin.
      { fold rows. rewrite Hr. by left. }
      apply list_elem_of_filter in Hin as [? ?]. done. }
    destruct Hex as (r & Hr & Hp).
    assert (is_Some (m !! p)) as [sdks Hsdks].
    { apply bind_inr in Hm as (pairs & Hpairs & [= <-]).
      apply sdks_by_project_pairs_runs in Hpairs as [_ Hpairs].
      apply dict_lookup_present.
      rewrite (Forall2_keys (λ g l, latest_sdks g = inr l) _ _ Hpairs).
      apply elem_of_runs_key. exists r. split; [done|].
      rewrite Forall_forall in Hids. rewrite (Hids r Hr) in Hp. by injection Hp. }
    exists sdks. split; [|done].
    destruct (reduction_lookup_inv data m p sdks Hm Hsdks) as (g & Hin & Hg).
    by rewrite Hrows, <- (runs_filter pid p g data Hnd Hin).
Qed.

Lemma ordered_rows_group_whole_projects_witness :
  let rows := filter (λ r, project_id r = Some 2)
                [row 2 "b" "1.0" 2; row 2 "a" "2.0" 1; row 1 "a" "1.0" 3] in
  (rows = [] →
   dict [(2, [{| name := "a"; version := "2.0" |};
              {| name := "b"; version := "1.0" |}]);
         (1, [{| name := "a"; version := "1.0" |}])] !! 2 = None) ∧
  (rows ≠ [] →
   ∃ sdks, latest_sdks rows = inr sdks ∧
     dict [(2, [{| name := "a"; version := "2.0" |};
                {| name := "b"; version := "1.0" |}]);
           (1, [{| name := "a"; version := "1.0" |}])] !! 2 = Some sdks).
Proof.
  apply (ordered_rows_group_whole_projects
           [row 2 "b" "1.0" 2; row 2 "a" "2.0" 1; row 1 "a" "1.0" 3]).
  - repeat constructor; vm_compute; discriminate.
  - reflexivity.
Defined.
